(** * SPBVP: the adapter between a beluga boundary value problem and the
    collocation engine

    A shallow embedding of [beluga/solvers/bvp_solvers/SPBVP.py].  The
    numeric arrays are modelled by their shape and their entries, Python
    exceptions by an error result, and the objects the solver shares
    (the guess, its arrays, its [aux] dictionary, the solver itself) by an
    explicit store. *)

From stdpp Require Import base option list strings gmap.
From Stdlib Require Import ZArith.

Set Default Proof Using "Type".

(** ** Exceptions *)

Inductive exn : Set :=
| ValueError      (* shapes that cannot be stacked or broadcast *)
| IndexError      (* an index or an axis that does not exist *)
| EngineError     (* whatever the collocation engine lets escape *)
| DanglingRef.    (* a reference outside the store; no Python program has one *)

Inductive res (A : Type) : Type :=
| Ok (a : A)
| Raise (e : exn).
Arguments Ok {A} a.
Arguments Raise {A} e.

#[global] Instance res_ret : MRet res := λ A a, Ok a.

#[global] Instance res_bind : MBind res := λ A B k m,
  match m with
  | Ok a => k a
  | Raise e => Raise e
  end.

Definition is_ok {A : Type} (m : res A) : bool :=
  match m with Ok _ => true | Raise _ => false end.

(** The entries of the arrays are floating point numbers; the adapter only
    moves them around and writes zeros, so all it needs of them is a zero. *)
Class Scalar (F : Type) := { fzero : F }.

#[global] Instance Z_scalar : Scalar Z := {| fzero := 0%Z |}.

(** ** The part of numpy the adapter uses *)

Module Np.
Section Arrays.
Context {F : Type} `{Scalar F}.

(** A two-axis array: its shape and its rows. *)
Record matrix : Type := Mat {
  m_rows : nat;
  m_cols : nat;
  m_data : list (list F)
}.

Definition wf_matrix (m : matrix) : Prop :=
  length (m_data m) = m_rows m ∧
  Forall (λ row, length row = m_cols m) (m_data m).

(** Arrays of one and of two axes. *)
Inductive ndarray : Type :=
| Arr1 (v : list F)
| Arr2 (m : matrix).

Definition wf (a : ndarray) : Prop :=
  match a with
  | Arr1 _ => True
  | Arr2 m => wf_matrix m
  end.

Definition shape (a : ndarray) : list nat :=
  match a with
  | Arr1 v => [length v]
  | Arr2 m => [m_rows m; m_cols m]
  end.

(** [a.size] *)
Definition size (a : ndarray) : nat :=
  match a with
  | Arr1 v => length v
  | Arr2 m => m_rows m * m_cols m
  end.

(** [a.shape[1]] *)
Definition shape1 (a : ndarray) : res nat :=
  match a with
  | Arr1 _ => Raise IndexError
  | Arr2 m => Ok (m_cols m)
  end.

(** [v[lo:hi]] for [0 <= lo] and [0 <= hi]: the bounds are clipped. *)
Definition slice (lo hi : nat) (v : list F) : list F :=
  take (hi - lo) (drop lo v).

(** [np.array([])] *)
Definition empty_array : ndarray := Arr1 [].

(** [np.zeros((r, c))] *)
Definition zeros (r c : nat) : matrix :=
  Mat r c (replicate r (replicate c fzero)).

(** [np.zeros_like(a)] *)
Definition zeros_like (a : ndarray) : ndarray :=
  match a with
  | Arr1 v => Arr1 (replicate (length v) fzero)
  | Arr2 m => Arr2 (zeros (m_rows m) (m_cols m))
  end.

(** Column [j] of a matrix. *)
Definition column (j : nat) (m : matrix) : list F :=
  map (λ row, nth j row fzero) (m_data m).

(** [m.T] *)
Definition transpose (m : matrix) : matrix :=
  Mat (m_cols m) (m_rows m) (map (λ j, column j m) (seq 0 (m_cols m))).

(** [a.T]: an array of one axis is its own transpose. *)
Definition T (a : ndarray) : ndarray :=
  match a with
  | Arr1 v => Arr1 v
  | Arr2 m => Arr2 (transpose m)
  end.

(** [np.atleast_2d(a)] *)
Definition atleast_2d (a : ndarray) : matrix :=
  match a with
  | Arr1 v => Mat 1 (length v) [v]
  | Arr2 m => m
  end.

(** [np.array([v]).T] for [v] of one axis: a single column. *)
Definition as_column (v : list F) : matrix :=
  Mat (length v) 1 (map (λ x, [x]) v).

(** [np.vstack(l)]: every array is taken [atleast_2d] and the rows are put
    one under the other; an empty list, or rows of different widths, are
    a [ValueError]. *)
Definition vstack (l : list ndarray) : res ndarray :=
  match l with
  | [] => Raise ValueError
  | a :: _ =>
      let ms := map atleast_2d l in
      let c := m_cols (atleast_2d a) in
      if forallb (λ m, m_cols m =? c) ms
      then Ok (Arr2 (Mat (sum_list (map m_rows ms)) c (concat (map m_data ms))))
      else Raise ValueError
  end.

(** [np.hstack((a, b))]: two arrays of one axis are concatenated, two
    arrays of two axes are joined side by side when they have as many rows;
    arrays of different rank are a [ValueError]. *)
Definition hstack (a b : ndarray) : res ndarray :=
  match a, b with
  | Arr1 u, Arr1 v => Ok (Arr1 (u ++ v))
  | Arr2 m, Arr2 n =>
      if m_rows m =? m_rows n
      then Ok (Arr2 (Mat (m_rows m) (m_cols m + m_cols n)
                         (zip_with app (m_data m) (m_data n))))
      else Raise ValueError
  | _, _ => Raise ValueError
  end.

(** [a[:, lo:hi]] *)
Definition col_slice (lo hi : nat) (a : ndarray) : res ndarray :=
  match a with
  | Arr1 _ => Raise IndexError
  | Arr2 m =>
      Ok (Arr2 (Mat (m_rows m) (Nat.min hi (m_cols m) - Nat.min lo (m_cols m))
                    (map (slice lo hi) (m_data m))))
  end.

(** [a[lo:hi]]: a slice of the first axis. *)
Definition row_slice (lo hi : nat) (a : ndarray) : ndarray :=
  match a with
  | Arr1 v => Arr1 (slice lo hi v)
  | Arr2 m =>
      Arr2 (Mat (Nat.min hi (m_rows m) - Nat.min lo (m_rows m)) (m_cols m)
                (take (hi - lo) (drop lo (m_data m))))
  end.

(** The value written by [target[:, :, ii] = a] into a slot of [r] rows and
    [c] columns: numpy broadcasts [a] to the slot, stretching an axis of
    length one, and refuses every other shape. *)
Definition fits (n k : nat) : bool := (k =? n) || (k =? 1).

Definition stretch {A : Type} (n k : nat) (d : A) (l : list A) : list A :=
  if k =? n then l else replicate n (nth 0 l d).

Definition broadcast_to (r c : nat) (a : ndarray) : res (list (list F)) :=
  let m := atleast_2d a in
  if fits r (m_rows m) && fits c (m_cols m)
  then Ok (map (stretch c (m_cols m) fzero) (stretch r (m_rows m) [] (m_data m)))
  else Raise ValueError.

(** An array of three axes indexed [row, column, node], kept as one block
    of rows per node. *)
Record array3 : Type := Arr3 {
  a3_rows : nat;
  a3_cols : nat;
  a3_nodes : nat;
  a3_blocks : list (list (list F))
}.

(** [np.zeros((r, c, n))] *)
Definition zeros3 (r c n : nat) : array3 :=
  Arr3 r c n (replicate n (replicate r (replicate c fzero))).

(** [a[i, j, ii]] *)
Definition get3 (a : array3) (i j ii : nat) : F :=
  nth j (nth i (nth ii (a3_blocks a) []) []) fzero.

(** [a[:, :, ii] = v] *)
Definition set_node (a : array3) (ii : nat) (v : ndarray) : res array3 :=
  if ii <? a3_nodes a then
    blk ← broadcast_to (a3_rows a) (a3_cols a) v;
    Ok (Arr3 (a3_rows a) (a3_cols a) (a3_nodes a) (<[ii := blk]> (a3_blocks a)))
  else Raise IndexError.

End Arrays.
#[global] Arguments matrix F : clear implicits.
#[global] Arguments ndarray F : clear implicits.
#[global] Arguments array3 F : clear implicits.
End Np.

Import Np.

(** ** The solver object and the functions it is given *)

Section Solver.
Context {F : Type} `{Scalar F}.

(** [derivative_function(state, dyn_params, constants)] and
    [quadrature_function(state, dyn_params, constants)] *)
Definition dyn_fun : Type := list F → list F → ndarray F → ndarray F.

(** [boundarycondition_function(vectors..., constants)]: called with four
    vectors when there are no quadratures and with six when there are. *)
Definition bc_fun : Type := list (list F) → ndarray F → ndarray F.

(** [derivative_function_jac(state, dyn_params, constants)]: the state
    block and the parameter block. *)
Definition jac_fun : Type := list F → list F → ndarray F → ndarray F * ndarray F.

(** [boundarycondition_function_jac(vectors..., constants)] *)
Definition bc_jac_fun : Type :=
  list (list F) → ndarray F → ndarray F * ndarray F * ndarray F.

Record SPBVP : Type := {
  derivative_function : dyn_fun;
  quadrature_function : dyn_fun;
  boundarycondition_function : bc_fun;
  derivative_function_jac : option jac_fun;
  boundarycondition_function_jac : option bc_jac_fun;
  max_nodes : Z
}.

(** [self.quadrature_function = f] *)
Definition set_quadrature_function (self : SPBVP) (f : dyn_fun) : SPBVP :=
  {| derivative_function := derivative_function self;
     quadrature_function := f;
     boundarycondition_function := boundarycondition_function self;
     derivative_function_jac := derivative_function_jac self;
     boundarycondition_function_jac := boundarycondition_function_jac self;
     max_nodes := max_nodes self |}.

(** [return_nil], lines 36-37 *)
Definition return_nil : dyn_fun := λ _ _ _, empty_array.

(** *** The closures handed to the engine

    Every closure reads [self] when it is called and captures the four
    sizes and the constants [solinit.k] when it is built.  The engine calls
    them with the mesh [t], the stacked matrix [y] (one column per node)
    and the stacked parameter vector [params]. *)

(** [_fun], lines 50-53 and 58-62 *)
Definition _fun (self : SPBVP) (nstates nquads ndyn : nat) (const : ndarray F)
    (t : list F) (y : matrix F) (params : list F) : res (ndarray F) :=
  if nquads =? 0 then
    o ← vstack (map (λ yi, derivative_function self (take nstates yi) (take ndyn params) const)
                     (m_data (transpose y)));
    Ok (T o)
  else
    let y := transpose y in
    o1 ← vstack (map (λ yi, derivative_function self (take nstates yi) (take ndyn params) const)
                      (m_data y));
    o2 ← vstack (map (λ yi, quadrature_function self (take nstates yi) (take ndyn params) const)
                      (m_data y));
    o ← hstack o1 o2;
    Ok (T o).

(** [_bc], lines 55-56 and 64-67 *)
Definition _bc (self : SPBVP) (nstates nquads ndyn nnondyn : nat) (const : ndarray F)
    (ya yb params : list F) : ndarray F :=
  if nquads =? 0 then
    boundarycondition_function self
      [ya; yb; take ndyn params; slice ndyn (ndyn + nnondyn) params] const
  else
    boundarycondition_function self
      [take nstates ya; slice nstates (nstates + nquads) ya;
       take nstates yb; slice nstates (nstates + nquads) yb;
       take ndyn params; slice ndyn (ndyn + nnondyn) params] const.

(** Lines 77-80: the parameter block of one node, promoted to a column
    when it has one axis and there is more than one state, then padded with
    [nnondyn] columns of zeros. *)
Definition pad_df_dp (nstates nnondyn : nat) (_df_dp : ndarray F) : res (ndarray F) :=
  let _df_dp :=
    match _df_dp with
    | Arr1 v => if 1 <? nstates then Arr2 (as_column v) else _df_dp
    | Arr2 _ => _df_dp
    end in
  hstack _df_dp (Arr2 (zeros nstates nnondyn)).

(** The loop of lines 75-80, from node [ii] on. *)
Fixpoint jac_loop (jac : jac_fun) (nstates ndyn nnondyn : nat) (const : ndarray F)
    (params : list F) (ii : nat) (ys : list (list F)) (df_dy df_dp : array3 F)
    : res (array3 F * array3 F) :=
  match ys with
  | [] => Ok (df_dy, df_dp)
  | yi :: ys =>
      let '(blk, _df_dp) := jac yi (take ndyn params) const in
      df_dy ← set_node df_dy ii blk;
      padded ← pad_df_dp nstates nnondyn _df_dp;
      df_dp ← set_node df_dp ii padded;
      jac_loop jac nstates ndyn nnondyn const params (S ii) ys df_dy df_dp
  end.

(** What [_fun_jac] returns: the state sensitivities alone, or the pair. *)
Inductive jac_out : Type :=
| JacOnly (df_dy : array3 F)
| JacBoth (df_dy df_dp : array3 F).

(** [_fun_jac], lines 70-85 *)
Definition _fun_jac (jac : jac_fun) (nstates ndyn nnondyn : nat) (const : ndarray F)
    (t : list F) (y : matrix F) (params : list F) : res jac_out :=
  let y := transpose y in
  match m_data y with
  | [] => Raise IndexError
  | y0 :: _ =>
      let df_dy := zeros3 (length y0) (length y0) (length t) in
      let df_dp := zeros3 (length y0) (ndyn + nnondyn) (length t) in
      '(df_dy, df_dp) ← jac_loop jac nstates ndyn nnondyn const params 0 (m_data y) df_dy df_dp;
      if ndyn + nnondyn =? 0 then Ok (JacOnly df_dy) else Ok (JacBoth df_dy df_dp)
  end.

(** [_bc_jac], lines 91-101 *)
Definition _bc_jac (jac : bc_jac_fun) (nstates nquads ndyn nnondyn : nat)
    (const : ndarray F) (ya yb params : list F) : ndarray F * ndarray F * ndarray F :=
  if 0 <? nquads then
    jac [take nstates ya; slice nstates (nstates + nquads) ya;
         take nstates yb; slice nstates (nstates + nquads) yb;
         take ndyn params; slice ndyn (ndyn + nnondyn) params] const
  else
    jac [ya; yb; take ndyn params; slice ndyn (ndyn + nnondyn) params] const.

End Solver.
#[global] Arguments dyn_fun F : clear implicits.
#[global] Arguments bc_fun F : clear implicits.
#[global] Arguments jac_fun F : clear implicits.
#[global] Arguments bc_jac_fun F : clear implicits.
#[global] Arguments SPBVP F : clear implicits.
#[global] Arguments jac_out F : clear implicits.

(** ** The store: guesses, their arrays and their dictionaries

    A guess is an object whose fields refer to arrays and to a dictionary;
    two guesses, or two fields, may refer to the same array.  References are
    typed by the kind of object they refer to. *)

Definition loc : Set := nat.

Section Store.
Context {F : Type} `{Scalar F}.

(** A value of the [aux] mapping. *)
Inductive auxval : Type :=
| AuxFloat (x : F)
| AuxInt (n : Z).

(** The solution or guess record of the data model: mesh, states,
    quadratures, dynamic and non-dynamic parameters, constants, costates,
    the auxiliary mapping and the convergence flag. *)
Record Trajectory : Set := {
  tr_t : loc;
  tr_y : loc;
  tr_q : loc;
  tr_p : loc;
  tr_nu : loc;
  tr_k : loc;
  tr_lam : loc;
  tr_aux : loc;
  tr_converged : bool
}.

Definition set_t (o : Trajectory) (l : loc) : Trajectory :=
  {| tr_t := l; tr_y := tr_y o; tr_q := tr_q o; tr_p := tr_p o; tr_nu := tr_nu o;
     tr_k := tr_k o; tr_lam := tr_lam o; tr_aux := tr_aux o;
     tr_converged := tr_converged o |}.
Definition set_y (o : Trajectory) (l : loc) : Trajectory :=
  {| tr_t := tr_t o; tr_y := l; tr_q := tr_q o; tr_p := tr_p o; tr_nu := tr_nu o;
     tr_k := tr_k o; tr_lam := tr_lam o; tr_aux := tr_aux o;
     tr_converged := tr_converged o |}.
Definition set_q (o : Trajectory) (l : loc) : Trajectory :=
  {| tr_t := tr_t o; tr_y := tr_y o; tr_q := l; tr_p := tr_p o; tr_nu := tr_nu o;
     tr_k := tr_k o; tr_lam := tr_lam o; tr_aux := tr_aux o;
     tr_converged := tr_converged o |}.
Definition set_p (o : Trajectory) (l : loc) : Trajectory :=
  {| tr_t := tr_t o; tr_y := tr_y o; tr_q := tr_q o; tr_p := l; tr_nu := tr_nu o;
     tr_k := tr_k o; tr_lam := tr_lam o; tr_aux := tr_aux o;
     tr_converged := tr_converged o |}.
Definition set_nu (o : Trajectory) (l : loc) : Trajectory :=
  {| tr_t := tr_t o; tr_y := tr_y o; tr_q := tr_q o; tr_p := tr_p o; tr_nu := l;
     tr_k := tr_k o; tr_lam := tr_lam o; tr_aux := tr_aux o;
     tr_converged := tr_converged o |}.
Definition set_lam (o : Trajectory) (l : loc) : Trajectory :=
  {| tr_t := tr_t o; tr_y := tr_y o; tr_q := tr_q o; tr_p := tr_p o; tr_nu := tr_nu o;
     tr_k := tr_k o; tr_lam := l; tr_aux := tr_aux o;
     tr_converged := tr_converged o |}.
Definition set_converged (o : Trajectory) (b : bool) : Trajectory :=
  {| tr_t := tr_t o; tr_y := tr_y o; tr_q := tr_q o; tr_p := tr_p o; tr_nu := tr_nu o;
     tr_k := tr_k o; tr_lam := tr_lam o; tr_aux := tr_aux o;
     tr_converged := b |}.

(** The solver object and the three kinds of objects it works on. *)
Record state : Type := {
  st_self : SPBVP F;
  st_arrays : list (ndarray F);
  st_dicts : list (gmap string auxval);
  st_trajs : list Trajectory
}.

(** Computations that read and write the store and may raise. *)
Definition M (A : Type) : Type := state → state * res A.

#[global] Instance M_ret : MRet M := λ A a s, (s, Ok a).

#[global] Instance M_bind : MBind M := λ A B k m s,
  match m s with
  | (s', Ok a) => k a s'
  | (s', Raise e) => (s', Raise e)
  end.

Definition lift {A : Type} (r : res A) : M A := λ s, (s, r).

Definition get_self : M (SPBVP F) := λ s, (s, Ok (st_self s)).

Definition put_self (self : SPBVP F) : M unit := λ s,
  ({| st_self := self; st_arrays := st_arrays s; st_dicts := st_dicts s;
      st_trajs := st_trajs s |}, Ok ()).

Definition lookup_ref {A : Type} (l : loc) (h : list A) : res A :=
  match h !! l with
  | Some a => Ok a
  | None => Raise DanglingRef
  end.

Definition load_array (l : loc) : M (ndarray F) := λ s, (s, lookup_ref l (st_arrays s)).
Definition load_dict (l : loc) : M (gmap string auxval) := λ s, (s, lookup_ref l (st_dicts s)).
Definition load_traj (l : loc) : M Trajectory := λ s, (s, lookup_ref l (st_trajs s)).

Definition alloc_array (a : ndarray F) : M loc := λ s,
  ({| st_self := st_self s; st_arrays := st_arrays s ++ [a]; st_dicts := st_dicts s;
      st_trajs := st_trajs s |}, Ok (length (st_arrays s))).

Definition alloc_dict (d : gmap string auxval) : M loc := λ s,
  ({| st_self := st_self s; st_arrays := st_arrays s; st_dicts := st_dicts s ++ [d];
      st_trajs := st_trajs s |}, Ok (length (st_dicts s))).

Definition alloc_traj (o : Trajectory) : M loc := λ s,
  ({| st_self := st_self s; st_arrays := st_arrays s; st_dicts := st_dicts s;
      st_trajs := st_trajs s ++ [o] |}, Ok (length (st_trajs s))).

Definition store_dict (l : loc) (d : gmap string auxval) : M unit := λ s,
  ({| st_self := st_self s; st_arrays := st_arrays s; st_dicts := <[l := d]> (st_dicts s);
      st_trajs := st_trajs s |}, Ok ()).

Definition store_traj (l : loc) (o : Trajectory) : M unit := λ s,
  ({| st_self := st_self s; st_arrays := st_arrays s; st_dicts := st_dicts s;
      st_trajs := <[l := o]> (st_trajs s) |}, Ok ()).

(** [obj.field = value] for a field that refers to an array: the array is
    a new object of the store and the field is bound to it. *)
Definition assign (obj : loc) (set : Trajectory → loc → Trajectory) (a : ndarray F)
    : M unit :=
  l ← alloc_array a;
  o ← load_traj obj;
  store_traj obj (set o l).

(** [obj.aux[key] = v] *)
Definition aux_setitem (obj : loc) (key : string) (v : auxval) : M unit :=
  o ← load_traj obj;
  d ← load_dict (tr_aux o);
  store_dict (tr_aux o) (<[key := v]> d).

(** *** [copy.deepcopy] and [copy.copy] of a guess

    The deep copy gives every array the guess refers to a copy of its own,
    once: the memo maps an array already copied to its copy, so two fields
    that shared an array share its copy. *)
Definition deepcopy_array (memo : gmap loc loc) (l : loc) : M (gmap loc loc * loc) :=
  match memo !! l with
  | Some l' => mret (memo, l')
  | None =>
      a ← load_array l;
      l' ← alloc_array a;
      mret (<[l := l']> memo, l')
  end.

Definition deepcopy (obj : loc) : M loc :=
  o ← load_traj obj;
  '(memo, t) ← deepcopy_array ∅ (tr_t o);
  '(memo, y) ← deepcopy_array memo (tr_y o);
  '(memo, q) ← deepcopy_array memo (tr_q o);
  '(memo, p) ← deepcopy_array memo (tr_p o);
  '(memo, nu) ← deepcopy_array memo (tr_nu o);
  '(memo, k) ← deepcopy_array memo (tr_k o);
  '(memo, lam) ← deepcopy_array memo (tr_lam o);
  d ← load_dict (tr_aux o);
  aux ← alloc_dict d;
  alloc_traj {| tr_t := t; tr_y := y; tr_q := q; tr_p := p; tr_nu := nu; tr_k := k;
                tr_lam := lam; tr_aux := aux; tr_converged := tr_converged o |}.

(** [copy.copy]: a new object whose fields refer to the same objects. *)
Definition copy (obj : loc) : M loc :=
  o ← load_traj obj;
  alloc_traj o.

(** *** What a guess holds

    The fields of the guess at [obj] as values: what a comparison of the
    object field by field looks at. *)
Record guess : Type := {
  g_t : ndarray F;
  g_y : ndarray F;
  g_q : ndarray F;
  g_p : ndarray F;
  g_nu : ndarray F;
  g_k : ndarray F;
  g_lam : ndarray F;
  g_aux : gmap string auxval;
  g_converged : bool
}.

Definition read_guess (s : state) (obj : loc) : option guess :=
  o ← st_trajs s !! obj;
  t ← st_arrays s !! tr_t o;
  y ← st_arrays s !! tr_y o;
  q ← st_arrays s !! tr_q o;
  p ← st_arrays s !! tr_p o;
  nu ← st_arrays s !! tr_nu o;
  k ← st_arrays s !! tr_k o;
  lam ← st_arrays s !! tr_lam o;
  aux ← st_dicts s !! tr_aux o;
  Some {| g_t := t; g_y := y; g_q := q; g_p := p; g_nu := nu; g_k := k;
          g_lam := lam; g_aux := aux; g_converged := tr_converged o |}.

End Store.
#[global] Arguments auxval F : clear implicits.
#[global] Arguments guess F : clear implicits.
#[global] Arguments state F : clear implicits.
#[global] Arguments M F A : clear implicits.

(** ** [SPBVP.solve] *)

Section Adapter.
Context {F : Type} `{Scalar F}.

(** The closures as the engine sees them. *)
Definition fun_t : Type := list F → matrix F → list F → res (ndarray F).
Definition bc_t : Type := list F → list F → list F → ndarray F.
Definition fun_jac_t : Type := list F → matrix F → list F → res (jac_out F).
Definition bc_jac_t : Type := list F → list F → list F → ndarray F * ndarray F * ndarray F.

(** What the engine returns: [opt['x']], [opt['y']], [opt['p']] (or
    [None]), [opt['success']], [opt['message']], [opt['rms_residuals']]
    and [opt['niter']]. *)
Record bvp_out : Type := {
  opt_x : ndarray F;
  opt_y : ndarray F;
  opt_p : option (ndarray F);
  opt_success : bool;
  opt_message : string;
  opt_rms_residuals : ndarray F;
  opt_niter : Z
}.

(** [scipy.integrate.solve_bvp(fun, bc, x, y, p, max_nodes, fun_jac,
    bc_jac)]: the collocation engine, of which the adapter knows the
    interface only. *)
Variable solve_bvp :
  fun_t → bc_t → ndarray F → ndarray F → ndarray F → Z →
  option fun_jac_t → option bc_jac_t → res bvp_out.

Record BVPResult : Type := {
  sol : loc;
  success : bool;
  message : string;
  rms_residuals : ndarray F;
  niter : Z
}.

(** Lines 32-46: the four sizes.  A guess without quadratures makes the
    solver forget its quadrature function. *)
Definition dimensions (solinit : loc) : M F (nat * nat * nat * nat) :=
  o ← load_traj solinit;
  y ← load_array (tr_y o);
  nstates ← lift (shape1 y);
  q ← load_array (tr_q o);
  nquads ← (if 0 <? size q then lift (shape1 q)
            else self ← get_self;
                 _ ← put_self (set_quadrature_function self return_nil);
                 mret 0);
  p ← load_array (tr_p o);
  nu ← load_array (tr_nu o);
  mret (nstates, nquads, size p, size nu).

(** Lines 105-116: the call of the engine on the stacked guess. *)
Definition invoke (solinit : loc) (nstates nquads ndyn nnondyn : nat) : M F bvp_out :=
  o ← load_traj solinit;
  k ← load_array (tr_k o);
  self ← get_self;
  let fun_ := _fun self nstates nquads ndyn k in
  let bc := _bc self nstates nquads ndyn nnondyn k in
  let fun_jac :=
    (λ jac, _fun_jac jac nstates ndyn nnondyn k) <$> derivative_function_jac self in
  let bc_jac :=
    (λ jac, _bc_jac jac nstates nquads ndyn nnondyn k) <$> boundarycondition_function_jac self in
  t ← load_array (tr_t o);
  y ← load_array (tr_y o);
  y0 ← (if 0 <? nquads
        then q ← load_array (tr_q o); yq ← lift (hstack y q); mret (T yq)
        else mret (T y));
  p ← load_array (tr_p o);
  nu ← load_array (tr_nu o);
  p0 ← lift (hstack p nu);
  lift (solve_bvp fun_ bc t y0 p0 (max_nodes self) fun_jac bc_jac).

(** Lines 120-128 on values: the new [y], [q], [lam], [p] and [nu]. *)
Definition split_y (nstates : nat) (opt : bvp_out) : res (ndarray F) :=
  col_slice 0 nstates (T (opt_y opt)).

Definition split_q (nstates nquads : nat) (opt : bvp_out) : res (ndarray F) :=
  col_slice nstates (nstates + nquads) (T (opt_y opt)).

Definition split_p (ndyn : nat) (opt : bvp_out) : ndarray F :=
  match opt_p opt with
  | Some p => row_slice 0 ndyn p
  | None => empty_array
  end.

Definition split_nu (ndyn nnondyn : nat) (opt : bvp_out) : ndarray F :=
  match opt_p opt with
  | Some p => row_slice ndyn (ndyn + nnondyn) p
  | None => empty_array
  end.

(** Lines 118-137: the solution and the result record. *)
Definition compose (solinit : loc) (nstates nquads ndyn nnondyn : nat)
    (opt : bvp_out) (comp_time : F) : M F BVPResult :=
  sol ← copy solinit;
  _ ← assign sol set_t (opt_x opt);
  y ← lift (split_y nstates opt);
  _ ← assign sol set_y y;
  q ← lift (split_q nstates nquads opt);
  _ ← assign sol set_q q;
  _ ← assign sol set_lam (zeros_like y);
  _ ← assign sol set_p (split_p ndyn opt);
  _ ← assign sol set_nu (split_nu ndyn nnondyn opt);
  o ← load_traj sol;
  _ ← store_traj sol (set_converged o (opt_success opt));
  _ ← aux_setitem sol "comp_time" (AuxFloat comp_time);
  _ ← aux_setitem sol "niter" (AuxInt (opt_niter opt));
  mret {| sol := sol; success := opt_success opt; message := opt_message opt;
          rms_residuals := opt_rms_residuals opt; niter := opt_niter opt |}.

(** [solve(self, solinit)], lines 29-137.  [comp_time] is the difference of
    the two clock readings taken around the call of the engine. *)
Definition solve (solinit : loc) (comp_time : F) : M F BVPResult :=
  solinit ← deepcopy solinit;
  '(nstates, nquads, ndyn, nnondyn) ← dimensions solinit;
  opt ← invoke solinit nstates nquads ndyn nnondyn;
  compose solinit nstates nquads ndyn nnondyn opt comp_time.

(** *** The three stages on the values of the guess

    The same lines read off a guess whose fields are known: the sizes and
    the solver they leave, the call of the engine, and the fields of the
    solution. *)
Definition sizes (g : guess F) : res (nat * nat * nat * nat) :=
  nstates ← shape1 (g_y g);
  nquads ← (if 0 <? size (g_q g) then shape1 (g_q g) else Ok 0);
  Ok (nstates, nquads, size (g_p g), size (g_nu g)).

Definition solver_after (self : SPBVP F) (g : guess F) : SPBVP F :=
  if is_ok (shape1 (g_y g)) && negb (0 <? size (g_q g))
  then set_quadrature_function self return_nil
  else self.

Definition engine_call (self : SPBVP F) (g : guess F)
    (nstates nquads ndyn nnondyn : nat) : res bvp_out :=
  y0 ← (if 0 <? nquads then yq ← hstack (g_y g) (g_q g); Ok (T yq) else Ok (T (g_y g)));
  p0 ← hstack (g_p g) (g_nu g);
  solve_bvp (_fun self nstates nquads ndyn (g_k g))
            (_bc self nstates nquads ndyn nnondyn (g_k g))
            (g_t g) y0 p0 (max_nodes self)
            ((λ jac, _fun_jac jac nstates ndyn nnondyn (g_k g))
               <$> derivative_function_jac self)
            ((λ jac, _bc_jac jac nstates nquads ndyn nnondyn (g_k g))
               <$> boundarycondition_function_jac self).

Definition solution (g : guess F) (nstates nquads ndyn nnondyn : nat)
    (opt : bvp_out) (comp_time : F) (y q : ndarray F) : guess F :=
  {| g_t := opt_x opt; g_y := y; g_q := q;
     g_p := split_p ndyn opt; g_nu := split_nu ndyn nnondyn opt;
     g_k := g_k g; g_lam := zeros_like y;
     g_aux := <["niter" := AuxInt (opt_niter opt)]>
                (<["comp_time" := AuxFloat comp_time]> (g_aux g));
     g_converged := opt_success opt |}.

(** [close(self)], lines 139-140 *)
Definition close : M F unit := mret ().

End Adapter.
#[global] Arguments fun_t F : clear implicits.
#[global] Arguments bc_t F : clear implicits.
#[global] Arguments fun_jac_t F : clear implicits.
#[global] Arguments bc_jac_t F : clear implicits.
#[global] Arguments bvp_out F : clear implicits.
#[global] Arguments BVPResult F : clear implicits.

(** ** Predicates of the specification *)

Section Predicates.
Context {F : Type} `{Scalar F}.

(** A function that returns vectors of [n] entries at the nodes of [y]. *)
Definition vector_valued (f : dyn_fun F) (nstates ndyn : nat) (const : ndarray F)
    (y : matrix F) (params : list F) (v : nat → list F) (n : nat) : Prop :=
  ∀ j, j < m_cols y →
    f (take nstates (column j y)) (take ndyn params) const = Arr1 (v j) ∧
    length (v j) = n.

(** The parameter block of one node as the analytic function may return it:
    a matrix of [nstates] rows and [ndyn] columns or, for a single dynamic
    parameter and more than one state, a vector of [nstates] entries. *)
Definition param_block_shaped (nstates ndyn : nat) (b : ndarray F) : Prop :=
  shape b = [nstates; ndyn] ∨ (1 < nstates ∧ ndyn = 1 ∧ shape b = [nstates]).

(** Blocks of the shapes the analytic function promises. *)
Definition jac_shaped (jac : jac_fun F) (nstates ndyn : nat) (params : list F)
    (const : ndarray F) : Prop :=
  ∀ yi, shape (jac yi (take ndyn params) const).1 = [nstates; nstates] ∧
        param_block_shaped nstates ndyn (jac yi (take ndyn params) const).2.

(** The state sensitivities of a call of the closure on [t], [y] and
    [params]: an array of [nstates] rows, [nstates] columns and one node per
    entry of [t] that holds, at every node of [y], the state block the
    analytic function returns for that node, and zeros at the nodes that
    [t] has beyond those of [y]. *)
Definition state_sensitivities (jac : jac_fun F) (nstates ndyn : nat) (const : ndarray F)
    (t : list F) (y : matrix F) (params : list F) (dy : array3 F) : Prop :=
  (a3_rows dy = nstates ∧ a3_cols dy = nstates ∧ a3_nodes dy = length t) ∧
  (∀ ii a, ii < m_cols y →
     (jac (column ii y) (take ndyn params) const).1 = Arr2 a →
     ∀ i j, get3 dy i j ii = nth j (nth i (m_data a) []) fzero) ∧
  (∀ ii i j, m_cols y ≤ ii → get3 dy i j ii = fzero).

(** The parameter sensitivities of the same call: [nstates] rows,
    [ndyn + nnondyn] columns and one node per entry of [t]; at every node
    of [y] the first [ndyn] columns are the parameter block of the analytic
    function (its one column, when the block is a vector), and the nodes
    beyond those of [y] are zero. *)
Definition parameter_sensitivities (jac : jac_fun F) (nstates ndyn nnondyn : nat)
    (const : ndarray F) (t : list F) (y : matrix F) (params : list F)
    (dp : array3 F) : Prop :=
  (a3_rows dp = nstates ∧ a3_cols dp = ndyn + nnondyn ∧ a3_nodes dp = length t) ∧
  (∀ ii b, ii < m_cols y →
     (jac (column ii y) (take ndyn params) const).2 = Arr2 b → wf (Arr2 b) →
     ∀ i j, j < ndyn → get3 dp i j ii = nth j (nth i (m_data b) []) fzero) ∧
  (∀ ii v, ii < m_cols y →
     (jac (column ii y) (take ndyn params) const).2 = Arr1 v →
     ∀ i, get3 dp i 0 ii = nth i v fzero) ∧
  (∀ ii i j, m_cols y ≤ ii → get3 dp i j ii = fzero).

(** A row whose entries from column [n] on are zero. *)
Definition zero_from (n : nat) (row : list F) : Prop :=
  ∀ c, n ≤ c → nth c row fzero = fzero.

(** A row that ends in [k] zeros after [n] other entries. *)
Definition padded_row (n k : nat) (row : list F) : Prop :=
  ∃ front, length front = n ∧ row = front ++ replicate k fzero.

Definition zero_padded (ndyn : nat) (a : array3 F) : Prop :=
  Forall (Forall (zero_from ndyn)) (a3_blocks a).

(** The arrays a record refers to. *)
Definition array_refs (o : Trajectory) : list loc :=
  [tr_t o; tr_y o; tr_q o; tr_p o; tr_nu o; tr_k o; tr_lam o].

(** A record all of whose references are to objects that [s0] does not
    have: objects made after [s0]. *)
Definition fresh_traj (s0 : state F) (o : Trajectory) : Prop :=
  Forall (λ l, length (st_arrays s0) ≤ l) (array_refs o) ∧
  length (st_dicts s0) ≤ tr_aux o.

(** [s] has every object of [s0] as it is in [s0], and the records it has
    besides refer to objects made after [s0]. *)
Definition grown (s0 s : state F) : Prop :=
  st_arrays s0 `prefix_of` st_arrays s ∧
  st_dicts s0 `prefix_of` st_dicts s ∧
  st_trajs s0 `prefix_of` st_trajs s ∧
  ∀ l o, length (st_trajs s0) ≤ l → st_trajs s !! l = Some o → fresh_traj s0 o.

(** [m] keeps [grown], whether it returns or raises, and what it returns
    satisfies [φ]. *)
Definition keeps {A : Type} (s0 : state F) (m : M F A) (φ : A → Prop) : Prop :=
  ∀ s, grown s0 s → grown s0 (m s).1 ∧ ∀ a, (m s).2 = Ok a → φ a.

(** Every copy the memo knows was made after [s0]. *)
Definition memo_fresh (s0 : state F) (memo : gmap loc loc) : Prop :=
  map_Forall (λ _ l', length (st_arrays s0) ≤ l') memo.

(** The guess at [obj] is the record [o] and has the fields [g]. *)
Definition holds (s : state F) (obj : loc) (o : Trajectory) (g : guess F) : Prop :=
  st_trajs s !! obj = Some o ∧
  st_arrays s !! tr_t o = Some (g_t g) ∧
  st_arrays s !! tr_y o = Some (g_y g) ∧
  st_arrays s !! tr_q o = Some (g_q g) ∧
  st_arrays s !! tr_p o = Some (g_p g) ∧
  st_arrays s !! tr_nu o = Some (g_nu g) ∧
  st_arrays s !! tr_k o = Some (g_k g) ∧
  st_arrays s !! tr_lam o = Some (g_lam g) ∧
  st_dicts s !! tr_aux o = Some (g_aux g) ∧
  tr_converged o = g_converged g.

(** [s'] is [s] with more arrays. *)
Definition more_arrays (s s' : state F) : Prop :=
  st_self s' = st_self s ∧ st_arrays s `prefix_of` st_arrays s' ∧
  st_dicts s' = st_dicts s ∧ st_trajs s' = st_trajs s.

(** Every array the memo knows is equal to its copy. *)
Definition memo_copies (s : state F) (memo : gmap loc loc) : Prop :=
  ∀ l l', memo !! l = Some l' →
    ∃ a, st_arrays s !! l = Some a ∧ st_arrays s !! l' = Some a.

Definition with_self (s : state F) (self : SPBVP F) : state F :=
  {| st_self := self; st_arrays := st_arrays s; st_dicts := st_dicts s;
     st_trajs := st_trajs s |}.

End Predicates.

(** ** A small problem to run the adapter on

    One state, a mesh of two nodes, and an engine that evaluates the field
    once on the guess it is given and reports that it ran out of nodes. *)

Module Examples.

Definition deriv_id : dyn_fun Z := λ x _ _, Arr1 x.
Definition quad_nine : dyn_fun Z := λ _ _ _, Arr1 [9%Z].
Definition bc_none : bc_fun Z := λ _ _, Arr1 [].

Definition solver0 : SPBVP Z :=
  {| derivative_function := deriv_id;
     quadrature_function := quad_nine;
     boundarycondition_function := bc_none;
     derivative_function_jac := None;
     boundarycondition_function_jac := None;
     max_nodes := 3 |}.

(** An analytic Jacobian that reports how many state entries and how many
    parameters it was called with. *)
Definition jac_probe : jac_fun Z := λ yi p _,
  (Arr2 (Mat 1 1 [[Z.of_nat (length yi)]]), Arr2 (Mat 1 1 [[Z.of_nat (length p)]])).

Definition jac_two : jac_fun Z := λ _ _ _,
  (Arr2 (Mat 2 2 [[1; 2]; [3; 4]]%Z), Arr2 (Mat 2 1 [[7]; [8]]%Z)).

(** The same two states without parameters: the parameter block has no
    column. *)
Definition jac_two_free : jac_fun Z := λ _ _ _,
  (Arr2 (Mat 2 2 [[1; 2]; [3; 4]]%Z), Arr2 (Mat 2 0 [[]; []])).

(** The same for a closure whose slots have three rows: the state block
    fits the slot, the parameter block has the two rows of the states. *)
Definition jac_wide : jac_fun Z := λ _ _ _,
  (Arr2 (zeros 3 3), Arr2 (Mat 2 1 [[7]; [8]]%Z)).

(** Two states over two nodes, and the same with a quadrature row. *)
Definition y_two : matrix Z := Mat 2 2 [[1; 2]; [3; 4]]%Z.
Definition y_two_quad : matrix Z := Mat 3 2 [[1; 2]; [3; 4]; [5; 6]]%Z.

Definition out_of_nodes : string := "The maximum number of mesh nodes is exceeded.".

Definition engine_once (f : fun_t Z) (bc : bc_t Z) (x y p : ndarray Z) (max_nodes : Z)
    (fun_jac : option (fun_jac_t Z)) (bc_jac : option (bc_jac_t Z)) : res (bvp_out Z) :=
  match x, y, p with
  | Arr1 t, Arr2 m, Arr1 pv =>
      dy ← f t m pv;
      Ok {| opt_x := x; opt_y := dy;
            opt_p := if length pv =? 0 then None else Some p;
            opt_success := false; opt_message := out_of_nodes;
            opt_rms_residuals := Arr1 []; opt_niter := 1 |}
  | _, _, _ => Raise EngineError
  end.

(** A store with two guesses on the same mesh: the guess at [0] has no
    quadratures, the guess at [1] has one. *)
Definition store0 : state Z :=
  {| st_self := solver0;
     st_arrays := [Arr1 [0; 1]%Z;
                   Arr2 (Mat 2 1 [[1]; [2]]%Z);
                   Arr1 [];
                   Arr2 (Mat 2 1 [[5]; [6]]%Z)];
     st_dicts := [∅];
     st_trajs := [{| tr_t := 0; tr_y := 1; tr_q := 2; tr_p := 2; tr_nu := 2; tr_k := 2;
                     tr_lam := 1; tr_aux := 0; tr_converged := false |};
                  {| tr_t := 0; tr_y := 1; tr_q := 3; tr_p := 2; tr_nu := 2; tr_k := 2;
                     tr_lam := 1; tr_aux := 0; tr_converged := false |}] |}.

Definition guess0 : guess Z :=
  {| g_t := Arr1 [0; 1]%Z; g_y := Arr2 (Mat 2 1 [[1]; [2]]%Z); g_q := Arr1 [];
     g_p := Arr1 []; g_nu := Arr1 []; g_k := Arr1 [];
     g_lam := Arr2 (Mat 2 1 [[1]; [2]]%Z); g_aux := ∅; g_converged := false |}.

Definition guess1 : guess Z :=
  {| g_t := Arr1 [0; 1]%Z; g_y := Arr2 (Mat 2 1 [[1]; [2]]%Z);
     g_q := Arr2 (Mat 2 1 [[5]; [6]]%Z);
     g_p := Arr1 []; g_nu := Arr1 []; g_k := Arr1 [];
     g_lam := Arr2 (Mat 2 1 [[1]; [2]]%Z); g_aux := ∅; g_converged := false |}.

(** The quadrature matrix of the solution a call returned. *)
Definition returned_q (r : state Z * res (BVPResult Z)) : option (ndarray Z) :=
  match r.2 with
  | Ok out => g_q <$> read_guess r.1 (sol out)
  | Raise _ => None
  end.

(** What the engine returns for the guess with a quadrature. *)
Definition opt1 : bvp_out Z :=
  {| opt_x := Arr1 [0; 1]%Z; opt_y := Arr2 (Mat 2 2 [[1; 2]; [9; 9]]%Z); opt_p := None;
     opt_success := false; opt_message := out_of_nodes;
     opt_rms_residuals := Arr1 []; opt_niter := 1 |}.

End Examples.

(** ** The constructor *)

Section Constructor.
Context {F : Type} `{Scalar F}.

(** [__init__(self, *args, **kwargs)], lines 25-27.  [base] is the solver as
    [BaseAlgorithm.__init__] leaves it; [kwargs] holds the keyword arguments
    that are numbers. *)
Definition __init__ (base : SPBVP F) (kwargs : gmap string Z) : SPBVP F :=
  {| derivative_function := derivative_function base;
     quadrature_function := quadrature_function base;
     boundarycondition_function := boundarycondition_function base;
     derivative_function_jac := derivative_function_jac base;
     boundarycondition_function_jac := boundarycondition_function_jac base;
     max_nodes := default 2000%Z (kwargs !! "max_nodes") |}.

(** [self'] is [self] but, maybe, for its quadrature function, which is then
    [return_nil]. *)
Definition quadrature_only (self self' : SPBVP F) : Prop :=
  derivative_function self' = derivative_function self ∧
  boundarycondition_function self' = boundarycondition_function self ∧
  derivative_function_jac self' = derivative_function_jac self ∧
  boundarycondition_function_jac self' = boundarycondition_function_jac self ∧
  max_nodes self' = max_nodes self ∧
  (quadrature_function self' = quadrature_function self ∨
   quadrature_function self' = return_nil).

(** The vectors the boundary closures hand to the functions of the solver,
    lines 56, 65-67, 93-95 and 100. *)
Definition bc_arguments (nstates nquads ndyn nnondyn : nat) (ya yb params : list F)
    : list (list F) :=
  if nquads =? 0 then
    [ya; yb; take ndyn params; slice ndyn (ndyn + nnondyn) params]
  else
    [take nstates ya; slice nstates (nstates + nquads) ya;
     take nstates yb; slice nstates (nstates + nquads) yb;
     take ndyn params; slice ndyn (ndyn + nnondyn) params].

End Constructor.

(** ** More of the small problem *)

Module MoreExamples.
Import Examples.

(** The stacked guess with other quadrature entries. *)
Definition y_two_other : matrix Z := Mat 3 2 [[1; 2]; [3; 4]; [0; 0]]%Z.

(** Two states over a mesh without nodes. *)
Definition y_no_nodes : matrix Z := Mat 2 0 [[]; []].

(** The store of the small problem with a solver built without keywords. *)
Definition store_built : state Z := with_self store0 (__init__ solver0 ∅).

(** An engine output that is the stacked guess of the small problem, with
    one dynamic and one non-dynamic parameter. *)
Definition opt_echo : bvp_out Z :=
  {| opt_x := Arr1 [0; 1]%Z; opt_y := Arr2 (Mat 2 2 [[1; 2]; [5; 6]]%Z);
     opt_p := Some (Arr1 [3; 4]%Z);
     opt_success := true; opt_message := EmptyString;
     opt_rms_residuals := Arr1 []; opt_niter := 1 |}.

End MoreExamples.

(** * Properties of the adapter *)

(** ** Stacking and the dynamics closure *)

Section Dynamics.
Context {F : Type} `{Scalar F}.

Lemma vectors_widths (vs : list (list F)) n :
  Forall (λ v, length v = n) vs →
  forallb (λ m, m_cols m =? n) (map atleast_2d (map Arr1 vs)) = true.
Proof.
  induction 1 as [|v vs Hv _ IH]; [done|]. simpl. by rewrite IH, Hv, Nat.eqb_refl.
Qed.

Lemma vectors_heights (vs : list (list F)) :
  sum_list (map m_rows (map atleast_2d (map Arr1 vs))) = length vs.
Proof. induction vs; simpl; [done|]. by rewrite IHvs. Qed.

Lemma vectors_rows (vs : list (list F)) :
  concat (map m_data (map atleast_2d (map Arr1 vs))) = vs.
Proof. induction vs; simpl; [done|]. by rewrite IHvs. Qed.

Lemma vstack_vectors (vs : list (list F)) n :
  vs ≠ [] → Forall (λ v, length v = n) vs →
  vstack (map Arr1 vs) = Ok (Arr2 (Mat (length vs) n vs)).
Proof.
  intros Hne Hvs. destruct vs as [|v vs]; [done|].
  inversion Hvs as [|? ? Hv Hrest]; subst.
  unfold vstack. simpl.
  rewrite Nat.eqb_refl, (vectors_widths vs (length v) Hrest), vectors_heights, vectors_rows.
  done.
Qed.

Lemma nth_seq_row (row : list F) :
  map (λ i, nth i row fzero) (seq 0 (length row)) = row.
Proof.
  induction row as [|x row IH]; [done|]. simpl. f_equal.
  rewrite <- seq_shift, map_map. exact IH.
Qed.

Lemma column_transpose j (m : matrix F) row :
  m_data m !! j = Some row → length row = m_cols m → column j (transpose m) = row.
Proof.
  intros Hj Hlen. unfold column at 1. simpl. rewrite map_map.
  transitivity (map (λ i, nth i row fzero) (seq 0 (length row))); [|apply nth_seq_row].
  rewrite Hlen. apply map_ext. intros i.
  unfold column. erewrite nth_indep.
  - rewrite (map_nth (λ r, nth i r fzero) (m_data m) []). f_equal.
    by apply nth_lookup_Some with (d := []) in Hj.
  - rewrite length_map. by eapply lookup_lt_Some.
Qed.

Lemma zip_with_app_map {A} (f g : A → list F) l :
  zip_with app (map f l) (map g l) = map (λ x, f x ++ g x) l.
Proof. induction l; simpl; [done|]. by rewrite IHl. Qed.

(** The rows [vstack] builds from what a function returns at every node. *)
Lemma vstack_nodes (f : list F → ndarray F) (v : nat → list F) (y : matrix F) n :
  0 < m_cols y →
  (∀ j, j < m_cols y → f (column j y) = Arr1 (v j) ∧ length (v j) = n) →
  vstack (map f (m_data (transpose y)))
  = Ok (Arr2 (Mat (m_cols y) n (map v (seq 0 (m_cols y))))).
Proof.
  intros Hc Hf. simpl. rewrite map_map.
  rewrite (map_ext_in _ (λ j, Arr1 (v j))); cycle 1.
  { intros j Hj%in_seq. apply Hf. lia. }
  rewrite <- (map_map v Arr1). rewrite (vstack_vectors _ n).
  - by rewrite length_map, length_seq.
  - destruct (m_cols y); [lia|done].
  - apply Forall_map, Forall_forall. intros j Hj%list_elem_of_In%in_seq. apply Hf. lia.
Qed.

(** C8: with [0 < nquads] every column of what the dynamics closure returns
    is the derivative of that node (taken on its first [nstates] entries and
    the first [ndyn] parameters) above its quadrature integrand; with
    [nquads = 0] it is the derivative alone, and the quadrature function of
    the solver plays no part. *)
Theorem fun_stacks_derivative_and_quadrature self nstates nquads ndyn const t
    (y : matrix F) params (dv qv : nat → list F) (m k : nat) :
  0 < m_cols y →
  vector_valued (derivative_function self) nstates ndyn const y params dv m →
  (0 < nquads →
     vector_valued (quadrature_function self) nstates ndyn const y params qv k) →
  (∃ out, _fun self nstates nquads ndyn const t y params = Ok (Arr2 out) ∧
          m_cols out = m_cols y ∧
          (0 < nquads → m_rows out = m + k ∧
             ∀ j, j < m_cols y → column j out = dv j ++ qv j) ∧
          (nquads = 0 → m_rows out = m ∧
             ∀ j, j < m_cols y → column j out = dv j)) ∧
  (nquads = 0 → ∀ self',
     derivative_function self' = derivative_function self →
     _fun self' nstates nquads ndyn const t y params
     = _fun self nstates nquads ndyn const t y params).
Proof.
  intros Hc Hd Hq. split.
  - unfold _fun. destruct (Nat.eqb_spec nquads 0) as [->|Hnq].
    + rewrite (vstack_nodes (λ yi, derivative_function self (take nstates yi) _ const) dv y m Hc Hd).
      simpl. eexists. split; [reflexivity|]. split; [done|]. split; [lia|]. intros _.
      split; [done|]. intros j Hj. apply column_transpose; simpl; [|by apply Hd].
      rewrite list_lookup_fmap, lookup_seq_lt by done. done.
    + specialize (Hq ltac:(lia)).
      rewrite (vstack_nodes (λ yi, derivative_function self (take nstates yi) _ const) dv y m Hc Hd).
      rewrite (vstack_nodes (λ yi, quadrature_function self (take nstates yi) _ const) qv y k Hc Hq).
      simpl. rewrite Nat.eqb_refl. simpl. rewrite zip_with_app_map.
      eexists. split; [reflexivity|]. split; [done|]. split; [|lia]. intros _.
      split; [done|]. intros j Hj. apply column_transpose; simpl.
      * rewrite list_lookup_fmap, lookup_seq_lt by done. done.
      * rewrite length_app. destruct (Hd j Hj) as [_ ->]. by destruct (Hq j Hj) as [_ ->].
  - intros -> self' Hself. unfold _fun. simpl. by rewrite Hself.
Qed.

End Dynamics.

(** ** The dynamics-Jacobian closure *)

Section Jacobian.
Context {F : Type} `{Scalar F}.
Implicit Types (jac : jac_fun F) (y : matrix F).

Lemma bind_Ok {A B} (a : A) (k : A → res B) : (Ok a ≫= k) = k a.
Proof. reflexivity. Qed.
Lemma bind_Ok_inv {A B} (m : res A) (k : A → res B) b :
  (m ≫= k) = Ok b → ∃ a, m = Ok a ∧ k a = Ok b.
Proof. destruct m as [a|e]; [eauto | discriminate]. Qed.

Lemma fun_jac_out_form jac nstates ndyn nnondyn const t y params out :
  _fun_jac jac nstates ndyn nnondyn const t y params = Ok out →
  if ndyn + nnondyn =? 0 then ∃ dy, out = JacOnly dy
  else ∃ dy dp, out = JacBoth dy dp.
Proof.
  unfold _fun_jac. destruct (m_data (transpose y)) as [|y0 ys]; [discriminate|].
  intros (r & Hr & Hout)%bind_Ok_inv. destruct r as [dy dp].
  destruct (ndyn + nnondyn =? 0); simplify_eq; eauto.
Qed.

Lemma pad_df_dp_rows nstates nnondyn a b :
  pad_df_dp nstates nnondyn a = Ok b → ∃ m, b = Arr2 m ∧ m_rows m = nstates.
Proof.
  unfold pad_df_dp. destruct a as [v|m]; simpl.
  - destruct (1 <? nstates); simpl; [|discriminate].
    destruct (length v =? nstates) eqn:E; [|discriminate].
    apply Nat.eqb_eq in E. intros [= <-]. eauto.
  - destruct (m_rows m =? nstates) eqn:E; [|discriminate].
    apply Nat.eqb_eq in E. intros [= <-]. eauto.
Qed.

Lemma set_node_inv (a a' : array3 F) ii v :
  set_node a ii v = Ok a' →
  ii < a3_nodes a ∧
  ∃ blk, broadcast_to (a3_rows a) (a3_cols a) v = Ok blk ∧
         a' = Arr3 (a3_rows a) (a3_cols a) (a3_nodes a) (<[ii := blk]> (a3_blocks a)).
Proof.
  unfold set_node. destruct (ii <? a3_nodes a) eqn:E; [|discriminate].
  apply Nat.ltb_lt in E. intros (blk & Hb & [= <-])%bind_Ok_inv. eauto.
Qed.

Lemma set_node_shape (a a' : array3 F) ii v :
  set_node a ii v = Ok a' →
  a3_rows a' = a3_rows a ∧ a3_cols a' = a3_cols a ∧ a3_nodes a' = a3_nodes a.
Proof. intros (_ & blk & _ & ->)%set_node_inv. done. Qed.

Lemma set_node_misfit (a : array3 F) ii m :
  fits (a3_rows a) (m_rows m) = false → ∃ e, set_node a ii (Arr2 m) = Raise e.
Proof.
  intros Hfit. unfold set_node, broadcast_to. simpl. rewrite Hfit. simpl.
  destruct (ii <? a3_nodes a); eauto.
Qed.

Lemma jac_loop_misfit jac nstates ndyn nnondyn const params ii yi ys (dy dp : array3 F) :
  fits (a3_rows dp) nstates = false →
  ∃ e, jac_loop jac nstates ndyn nnondyn const params ii (yi :: ys) dy dp = Raise e.
Proof.
  intros Hfit. simpl. destruct (jac yi _ const) as [blk b].
  destruct (set_node dy ii blk) as [dy'|e]; simpl; [|eauto].
  destruct (pad_df_dp nstates nnondyn b) as [padded|e] eqn:Hpad; simpl; [|eauto].
  apply pad_df_dp_rows in Hpad as (m & -> & Hm).
  destruct (set_node_misfit dp ii m) as [e He]; [by rewrite Hm|].
  rewrite He. simpl. eauto.
Qed.

Lemma transpose_rows y :
  m_data (transpose y) = map (λ j, column j y) (seq 0 (m_cols y)).
Proof. reflexivity. Qed.

Lemma length_column j y : length (column j y) = length (m_data y).
Proof. unfold column. by rewrite length_map. Qed.

Lemma transpose_first_row y :
  0 < m_cols y → ∃ ys, m_data (transpose y) = column 0 y :: ys.
Proof.
  intros Hc. rewrite transpose_rows. destruct (m_cols y) as [|n]; [lia|].
  simpl. eauto.
Qed.

Lemma fun_jac_quads_raise jac nstates nquads ndyn nnondyn const t y params :
  length (m_data y) = nstates + nquads → 0 < m_cols y →
  0 < nquads → nstates ≠ 1 →
  ∃ e, _fun_jac jac nstates ndyn nnondyn const t y params = Raise e.
Proof.
  intros Hy Hc Hq Hs. unfold _fun_jac.
  destruct (transpose_first_row y Hc) as [ys ->].
  rewrite length_column, Hy.
  edestruct (jac_loop_misfit jac nstates ndyn nnondyn const params 0 (column 0 y) ys)
    as [e ->]; [|simpl; eauto].
  simpl. unfold fits.
  destruct (Nat.eqb_spec nstates (nstates + nquads)); [lia|].
  destruct (Nat.eqb_spec nstates 1); [lia|done].
Qed.

Lemma shape_Arr2 (a : ndarray F) r c :
  shape a = [r; c] → ∃ m, a = Arr2 m ∧ m_rows m = r ∧ m_cols m = c.
Proof. destruct a as [v|m]; simpl; [discriminate|]. intros [= <- <-]. eauto. Qed.

Lemma fits_refl n : fits n n = true.
Proof. unfold fits. by rewrite Nat.eqb_refl. Qed.

Lemma set_node_fit (a : array3 F) ii m :
  ii < a3_nodes a → m_rows m = a3_rows a → m_cols m = a3_cols a →
  ∃ a', set_node a ii (Arr2 m) = Ok a'.
Proof.
  intros Hii Hr Hc. unfold set_node, broadcast_to. simpl.
  rewrite Hr, Hc, !fits_refl. simpl.
  destruct (Nat.ltb_spec ii (a3_nodes a)); [|lia]. simpl. eauto.
Qed.

Lemma pad_df_dp_fit nstates ndyn nnondyn b :
  param_block_shaped nstates ndyn b →
  ∃ m', pad_df_dp nstates nnondyn b = Ok (Arr2 m') ∧
        m_rows m' = nstates ∧ m_cols m' = ndyn + nnondyn.
Proof.
  unfold pad_df_dp. intros [(m & -> & Hr & Hc)%shape_Arr2|(Hs & -> & Hb)].
  - simpl. rewrite Hr, Nat.eqb_refl. eexists. split; [done|]. simpl. by rewrite Hc.
  - destruct b as [v|m]; [|done]. injection Hb as Hv.
    destruct (Nat.ltb_spec 1 nstates); [|lia]. simpl.
    rewrite Hv, Nat.eqb_refl. eauto.
Qed.

Lemma jac_loop_total jac nstates ndyn nnondyn const params ys :
  jac_shaped jac nstates ndyn params const →
  ∀ ii (dy dp : array3 F),
    a3_rows dy = nstates → a3_cols dy = nstates →
    a3_rows dp = nstates → a3_cols dp = ndyn + nnondyn →
    ii + length ys ≤ a3_nodes dy → ii + length ys ≤ a3_nodes dp →
    ∃ r, jac_loop jac nstates ndyn nnondyn const params ii ys dy dp = Ok r.
Proof.
  intros Hjac. induction ys as [|yi ys IH]; intros ii dy dp Hyr Hyc Hpr Hpc Hyn Hpn.
  { simpl. eauto. }
  simpl in *. destruct (Hjac yi) as [Ha Hb].
  destruct (jac yi _ const) as [a b]. simpl in *.
  apply shape_Arr2 in Ha as (ma & -> & Har & Hac).
  destruct (set_node_fit dy ii ma) as [dy' Hdy]; [lia..|].
  rewrite Hdy. simpl.
  destruct (pad_df_dp_fit nstates ndyn nnondyn b Hb) as (mp & -> & Hmr & Hmc). simpl.
  destruct (set_node_fit dp ii mp) as [dp' Hdp]; [lia..|].
  rewrite Hdp. simpl.
  apply set_node_shape in Hdy as (? & ? & ?). apply set_node_shape in Hdp as (? & ? & ?).
  apply IH; lia.
Qed.

Lemma fun_jac_total jac nstates ndyn nnondyn const t y params :
  jac_shaped jac nstates ndyn params const →
  length (m_data y) = nstates → 0 < m_cols y → m_cols y ≤ length t →
  ∃ out, _fun_jac jac nstates ndyn nnondyn const t y params = Ok out.
Proof.
  intros Hjac Hy Hc Ht. unfold _fun_jac.
  destruct (transpose_first_row y Hc) as [ys Hys].
  assert (Hlen : S (length ys) = m_cols y).
  { apply (f_equal length) in Hys. rewrite transpose_rows, length_map, length_seq in Hys.
    simpl in Hys. lia. }
  rewrite Hys, length_column, Hy.
  destruct (jac_loop_total jac nstates ndyn nnondyn const params (column 0 y :: ys) Hjac 0
              (zeros3 nstates nstates (length t))
              (zeros3 nstates (ndyn + nnondyn) (length t))) as [[dy dp] ->]; simpl; try done.
  1,2: lia.
  destruct (ndyn + nnondyn =? 0); eauto.
Qed.

Lemma nth_replicate_zero c k : nth c (replicate k fzero) fzero = fzero.
Proof. revert c. induction k as [|k IH]; intros [|c]; simpl; auto. Qed.

Lemma zero_from_nil n : zero_from n [].
Proof. intros [|c] _; reflexivity. Qed.

Lemma zero_from_replicate n k : zero_from n (replicate k fzero).
Proof. intros c _. apply nth_replicate_zero. Qed.

Lemma zero_from_short n row : length row ≤ n → zero_from n row.
Proof. intros Hl c Hc. apply nth_overflow. lia. Qed.

Lemma padded_row_zero_from n k row : padded_row n k row → zero_from n row.
Proof.
  intros (front & Hf & ->) c Hc. rewrite app_nth2 by lia. apply nth_replicate_zero.
Qed.

Lemma padded_row_head n k row :
  padded_row n k row → n = 0 → nth 0 row fzero = fzero.
Proof.
  intros (front & Hf & ->) ->. destruct front; [|discriminate].
  simpl. apply nth_replicate_zero.
Qed.

Lemma Forall_zip_with_app (P Q R : list F → Prop) l k :
  (∀ a b, P a → Q b → R (a ++ b)) →
  Forall P l → Forall Q k → Forall R (zip_with app l k).
Proof.
  intros HR Hl. revert k. induction Hl as [|a l Ha Hl IH]; intros k Hk; [constructor|].
  destruct Hk as [|b k Hb Hk]; simpl; constructor; auto.
Qed.

Lemma pad_df_dp_rows_padded nstates nnondyn b m :
  wf b → pad_df_dp nstates nnondyn b = Ok (Arr2 m) →
  ∃ n, m_cols m = n + nnondyn ∧ Forall (padded_row n nnondyn) (m_data m).
Proof.
  unfold pad_df_dp. intros Hwf Hpad.
  assert (∃ mb, wf_matrix mb ∧ hstack (Arr2 mb) (Arr2 (zeros nstates nnondyn)) = Ok (Arr2 m))
    as (mb & [_ Hrows] & Hst).
  { destruct b as [v|mb]; [|eauto].
    destruct (1 <? nstates); [|discriminate]. exists (as_column v). split; [|done].
    split; simpl; [by rewrite length_map|].
    apply Forall_map, Forall_forall. done. }
  simpl in Hst. destruct (m_rows mb =? nstates); [|discriminate].
  injection Hst as <-. simpl. exists (m_cols mb). split; [done|].
  apply (Forall_zip_with_app (λ a, length a = m_cols mb) (λ z, z = replicate nnondyn fzero));
    [|exact Hrows|by apply Forall_replicate].
  intros a z Ha ->. by exists a.
Qed.

Lemma stretch_Forall {A} (P : A → Prop) n k d l :
  P d → Forall P l → Forall P (stretch n k d l).
Proof.
  intros Hd Hl. unfold stretch. destruct (k =? n); [done|].
  apply Forall_replicate. destruct l; simpl; [done|]. by inversion Hl.
Qed.

Lemma broadcast_padded r ndyn nnondyn n m blk :
  m_cols m = n + nnondyn → Forall (padded_row n nnondyn) (m_data m) →
  broadcast_to r (ndyn + nnondyn) (Arr2 m) = Ok blk →
  Forall (zero_from ndyn) blk.
Proof.
  intros Hc Hrows. unfold broadcast_to. simpl.
  destruct (fits r (m_rows m)); [|discriminate]. simpl.
  destruct (fits (ndyn + nnondyn) (m_cols m)) eqn:Hfit; [|discriminate].
  intros [= <-]. apply Forall_map.
  apply (stretch_Forall (λ row, zero_from ndyn (stretch (ndyn + nnondyn) (m_cols m) fzero row))).
  - unfold stretch. destruct (_ =? _); [apply zero_from_nil|apply zero_from_replicate].
  - eapply Forall_impl; [exact Hrows|]. intros row Hrow. unfold stretch.
    destruct (Nat.eqb_spec (m_cols m) (ndyn + nnondyn)) as [Heq|Hne].
    + assert (n = ndyn) as -> by lia. by eapply padded_row_zero_from.
    + unfold fits in Hfit. destruct (Nat.eqb_spec (m_cols m) (ndyn + nnondyn)); [done|].
      destruct (Nat.eqb_spec (m_cols m) 1) as [H1|]; [|done].
      destruct nnondyn as [|k].
      * apply zero_from_short. rewrite length_replicate. lia.
      * rewrite (padded_row_head n (S k) row Hrow) by lia. apply zero_from_replicate.
Qed.

Lemma zeros3_zero_padded ndyn r c n : zero_padded ndyn (zeros3 r c n).
Proof.
  unfold zero_padded. simpl. apply Forall_replicate, Forall_replicate, zero_from_replicate.
Qed.

Lemma jac_loop_zero_padded jac nstates ndyn nnondyn const params ys :
  (∀ yi p k, wf (jac yi p k).2) →
  ∀ ii (dy dp dy' dp' : array3 F),
    a3_cols dp = ndyn + nnondyn → zero_padded ndyn dp →
    jac_loop jac nstates ndyn nnondyn const params ii ys dy dp = Ok (dy', dp') →
    zero_padded ndyn dp'.
Proof.
  intros Hwf. induction ys as [|yi ys IH]; intros ii dy dp dy' dp' Hc Hz; simpl.
  { by intros [= _ <-]. }
  specialize (Hwf yi (take ndyn params) const).
  destruct (jac yi _ const) as [a b]. simpl in Hwf.
  intros (dy1 & _ & Hrest)%bind_Ok_inv.
  apply bind_Ok_inv in Hrest as (padded & Hpad & Hrest).
  apply bind_Ok_inv in Hrest as (dp1 & Hset & Hloop).
  destruct (pad_df_dp_rows nstates nnondyn b padded Hpad) as (m & -> & _).
  apply (pad_df_dp_rows_padded nstates nnondyn b m Hwf) in Hpad as (n & Hn & Hrows).
  apply set_node_inv in Hset as (_ & blk & Hblk & ->).
  eapply IH; [| |exact Hloop]; [done|].
  unfold zero_padded. simpl. apply Forall_insert; [done|].
  rewrite Hc in Hblk. by eapply broadcast_padded.
Qed.

Lemma get3_zero_padded ndyn (a : array3 F) i j ii :
  zero_padded ndyn a → ndyn ≤ j → get3 a i j ii = fzero.
Proof.
  intros Hz Hj. unfold get3.
  assert (Forall (zero_from ndyn) (nth ii (a3_blocks a) [])) as Hblk.
  { destruct (nth_in_or_default ii (a3_blocks a) []) as [Hin| ->]; [|constructor].
    revert Hin. apply (proj1 (List.Forall_forall _ _) Hz). }
  destruct (nth_in_or_default i (nth ii (a3_blocks a) []) []) as [Hin| ->].
  - by apply (proj1 (List.Forall_forall _ _) Hblk _ Hin).
  - by apply (zero_from_nil ndyn).
Qed.

Lemma fun_jac_zero_padded jac nstates ndyn nnondyn const t y params dy dp :
  (∀ yi p k, wf (jac yi p k).2) →
  _fun_jac jac nstates ndyn nnondyn const t y params = Ok (JacBoth dy dp) →
  zero_padded ndyn dp.
Proof.
  intros Hwf. unfold _fun_jac. destruct (m_data (transpose y)) as [|y0 ys] eqn:Hy; [discriminate|].
  intros ([dy1 dp1] & Hloop & Hout)%bind_Ok_inv.
  destruct (ndyn + nnondyn =? 0); simplify_eq.
  eapply jac_loop_zero_padded; [exact Hwf| | |exact Hloop]; [done|apply zeros3_zero_padded].
Qed.

Lemma jac_loop_shape jac nstates ndyn nnondyn const params ys :
  ∀ ii (dy dp dy' dp' : array3 F),
    jac_loop jac nstates ndyn nnondyn const params ii ys dy dp = Ok (dy', dp') →
    a3_cols dp' = a3_cols dp ∧ a3_rows dp' = a3_rows dp ∧ a3_nodes dp' = a3_nodes dp.
Proof.
  induction ys as [|yi ys IH]; intros ii dy dp dy' dp'; simpl.
  { by intros [= _ <-]. }
  destruct (jac yi _ const) as [a b].
  intros (dy1 & _ & Hrest)%bind_Ok_inv.
  apply bind_Ok_inv in Hrest as (padded & _ & Hrest).
  apply bind_Ok_inv in Hrest as (dp1 & Hset & Hloop).
  apply IH in Hloop as (-> & -> & ->). by apply set_node_shape in Hset as (-> & -> & ->).
Qed.

Lemma zip_with_app_column (v : list F) (z : list F) :
  zip_with app (map (λ x, [x]) v) (replicate (length v) z) = map (λ x, x :: z) v.
Proof. induction v as [|x v IH]; simpl; [done|]. by rewrite IH. Qed.

Lemma stretch_same {A} n (d : A) l : stretch n n d l = l.
Proof. unfold stretch. by rewrite Nat.eqb_refl. Qed.

Lemma broadcast_exact r c (m : matrix F) :
  m_rows m = r → m_cols m = c → broadcast_to r c (Arr2 m) = Ok (m_data m).
Proof.
  intros <- <-. unfold broadcast_to. simpl. rewrite !fits_refl. simpl.
  rewrite stretch_same. f_equal. rewrite <- (map_id (m_data m)) at 2.
  apply map_ext. intros row. apply stretch_same.
Qed.

Lemma get3_zeros3 r c n i j ii : get3 (zeros3 (F:=F) r c n) i j ii = fzero.
Proof.
  apply (get3_zero_padded 0); [|lia]. apply zeros3_zero_padded.
Qed.

Lemma nth_zip_with_pad (l : list (list F)) (z : list F) i :
  nth i (zip_with app l (replicate (length l) z)) []
  = if decide (i < length l) then nth i l [] ++ z else [].
Proof.
  revert i. induction l as [|x l IH]; intros [|i]; simpl; try done.
  rewrite IH. repeat case_decide; try done; lia.
Qed.

Lemma jac_loop_blocks jac nstates ndyn nnondyn const params ys :
  ∀ ii (dy dp dy' dp' : array3 F),
    length (a3_blocks dy) = a3_nodes dy → length (a3_blocks dp) = a3_nodes dp →
    jac_loop jac nstates ndyn nnondyn const params ii ys dy dp = Ok (dy', dp') →
    (∀ n, n < ii ∨ ii + length ys ≤ n →
       a3_blocks dy' !! n = a3_blocks dy !! n ∧ a3_blocks dp' !! n = a3_blocks dp !! n) ∧
    (∀ k yi, ys !! k = Some yi →
       ∃ blk padded blk',
         broadcast_to (a3_rows dy) (a3_cols dy) (jac yi (take ndyn params) const).1 = Ok blk ∧
         a3_blocks dy' !! (ii + k) = Some blk ∧
         pad_df_dp nstates nnondyn (jac yi (take ndyn params) const).2 = Ok padded ∧
         broadcast_to (a3_rows dp) (a3_cols dp) padded = Ok blk' ∧
         a3_blocks dp' !! (ii + k) = Some blk').
Proof.
  induction ys as [|yi ys IH]; intros ii dy dp dy' dp' Hly Hlp; simpl.
  { intros [= <- <-]. split; [done|]. intros k yi Hk. by rewrite lookup_nil in Hk. }
  destruct (jac yi _ const) as [a b] eqn:Hjac.
  intros (dy1 & Hsy & Hrest)%bind_Ok_inv.
  apply bind_Ok_inv in Hrest as (padded & Hpad & Hrest).
  apply bind_Ok_inv in Hrest as (dp1 & Hsp & Hloop).
  apply set_node_inv in Hsy as (Hiy & blk & Hblk & ->).
  apply set_node_inv in Hsp as (Hip & blk' & Hblk' & ->).
  apply IH in Hloop as [Hframe Hnodes]; simpl; [|by rewrite length_insert..].
  simpl in *. split.
  - intros n Hn. destruct (Hframe n) as [-> ->]; [lia|].
    rewrite !list_lookup_insert_ne by lia. done.
  - intros [|k] yk Hk; simpl in Hk.
    + injection Hk as <-. rewrite Hjac. simpl. exists blk, padded, blk'.
      rewrite Nat.add_0_r. destruct (Hframe ii) as [-> ->]; [lia|].
      rewrite !list_lookup_insert_eq by lia. done.
    + destruct (Hnodes k yk Hk) as (b1 & p1 & b2 & ? & ? & ? & ? & ?).
      exists b1, p1, b2. replace (ii + S k) with (S ii + k) by lia. done.
Qed.

Lemma lookup_nth_eq {A} (l k : list A) n d : l !! n = k !! n → nth n l d = nth n k d.
Proof.
  intros Hn. destruct (l !! n) as [x|] eqn:Hl.
  - symmetry in Hn. by rewrite (nth_lookup_Some _ _ d _ Hl), (nth_lookup_Some _ _ d _ Hn).
  - symmetry in Hn. apply lookup_ge_None in Hl, Hn. by rewrite !nth_overflow by lia.
Qed.

Lemma jac_loop_shape_dy jac nstates ndyn nnondyn const params ys :
  ∀ ii (dy dp dy' dp' : array3 F),
    jac_loop jac nstates ndyn nnondyn const params ii ys dy dp = Ok (dy', dp') →
    a3_cols dy' = a3_cols dy ∧ a3_rows dy' = a3_rows dy ∧ a3_nodes dy' = a3_nodes dy.
Proof.
  induction ys as [|yi ys IH]; intros ii dy dp dy' dp'; simpl.
  { by intros [= <- _]. }
  destruct (jac yi _ const) as [a b].
  intros (dy1 & Hset & Hrest)%bind_Ok_inv.
  apply bind_Ok_inv in Hrest as (padded & _ & Hrest).
  apply bind_Ok_inv in Hrest as (dp1 & _ & Hloop).
  apply IH in Hloop as (-> & -> & ->). by apply set_node_shape in Hset as (-> & -> & ->).
Qed.

Lemma pad_df_dp_vector nstates nnondyn (v : list F) :
  1 < nstates → length v = nstates →
  pad_df_dp nstates nnondyn (Arr1 v)
  = Ok (Arr2 (Mat nstates (1 + nnondyn) (map (λ x, x :: replicate nnondyn fzero) v))).
Proof.
  intros Hs Hv. unfold pad_df_dp. destruct (Nat.ltb_spec 1 nstates); [|lia].
  simpl. rewrite Hv, Nat.eqb_refl. rewrite <- Hv at 2. by rewrite zip_with_app_column.
Qed.

(** What the closure returns on inputs of the promised shapes. *)
Lemma fun_jac_sensitivities jac nstates ndyn nnondyn const t y params :
  jac_shaped jac nstates ndyn params const →
  length (m_data y) = nstates → 0 < m_cols y → m_cols y ≤ length t →
  ∃ dy dp,
    _fun_jac jac nstates ndyn nnondyn const t y params
    = Ok (if ndyn + nnondyn =? 0 then JacOnly dy else JacBoth dy dp) ∧
    state_sensitivities jac nstates ndyn const t y params dy ∧
    parameter_sensitivities jac nstates ndyn nnondyn const t y params dp.
Proof.
  intros Hjac Hy Hc Ht.
  destruct (fun_jac_total jac nstates ndyn nnondyn const t y params) as [out Hout]; try done.
  revert Hout. unfold _fun_jac.
  destruct (transpose_first_row y Hc) as [ys Hys].
  rewrite Hys, length_column, Hy, <- Hys.
  intros ([dy dp] & Hloop & Hout)%bind_Ok_inv. rewrite Hloop. simpl.
  exists dy, dp. split; [by destruct (ndyn + nnondyn =? 0)|]. clear Hout out.
  assert (∀ ii, ii < m_cols y → m_data (transpose y) !! ii = Some (column ii y)) as Hnode.
  { intros ii Hii. by rewrite transpose_rows, list_lookup_fmap, lookup_seq_lt by done. }
  pose proof (jac_loop_shape _ _ _ _ _ _ _ _ _ _ _ _ Hloop) as (Hpc & Hpr & Hpn).
  pose proof (jac_loop_shape_dy _ _ _ _ _ _ _ _ _ _ _ _ Hloop) as (Hyc & Hyr & Hyn).
  apply jac_loop_blocks in Hloop as [Hframe Hnodes];
    [|simpl; by rewrite length_replicate..].
  simpl in Hpc, Hpr, Hpn, Hyc, Hyr, Hyn.
  assert (length (m_data (transpose y)) = m_cols y) as Hlen
    by (by rewrite transpose_rows, length_map, length_seq).
  assert (∀ ii i j, m_cols y ≤ ii → get3 dy i j ii = fzero ∧ get3 dp i j ii = fzero) as Hrest.
  { intros ii i j Hii. destruct (Hframe ii) as [Hfy Hfp]; [right; lia|].
    unfold get3.
    rewrite (lookup_nth_eq _ _ _ [] Hfy), (lookup_nth_eq _ _ _ [] Hfp).
    split; [apply (get3_zeros3 nstates nstates (length t))
           |apply (get3_zeros3 nstates (ndyn + nnondyn) (length t))]. }
  split; split_and!; try done.
  - intros ii a Hii Ha i j.
    destruct (Hnodes ii (column ii y) (Hnode ii Hii))
      as (blk & padded & blk' & Hb & Hdy & _).
    destruct (Hjac (column ii y)) as [Hsa _]. rewrite Ha in Hb, Hsa. simpl in Hb, Hsa, Hdy.
    injection Hsa as Har Hac.
    rewrite broadcast_exact in Hb by done. injection Hb as <-.
    unfold get3. by rewrite (nth_lookup_Some _ _ _ _ Hdy).
  - intros ii i j Hii. by destruct (Hrest ii i j Hii).
  - intros ii b Hii Hb [Hbl Hbw] i j Hj. simpl in Hbl, Hbw.
    destruct (Hnodes ii (column ii y) (Hnode ii Hii))
      as (blk & padded & blk' & _ & _ & Hp & Hb' & Hdp).
    destruct (Hjac (column ii y)) as [_ Hsb]. rewrite Hb in Hp, Hsb. simpl in Hb', Hdp.
    destruct Hsb as [[= Hbr Hbc]|(_ & _ & [=])].
    unfold pad_df_dp in Hp. simpl in Hp. rewrite Hbr, Nat.eqb_refl in Hp.
    injection Hp as <-. rewrite broadcast_exact in Hb' by (simpl; lia).
    injection Hb' as <-. simpl in Hdp.
    unfold get3. rewrite (nth_lookup_Some _ _ _ _ Hdp).
    rewrite <- Hbr, <- Hbl, nth_zip_with_pad. case_decide as Hi.
    + apply app_nth1. rewrite Forall_forall in Hbw.
      rewrite (Hbw (nth i (m_data b) [])); [lia|].
      apply list_elem_of_In, nth_In. done.
    + rewrite (nth_overflow (m_data b)) by lia. by destruct j.
  - intros ii v Hii Hv i.
    destruct (Hnodes ii (column ii y) (Hnode ii Hii))
      as (blk & padded & blk' & _ & _ & Hp & Hb' & Hdp).
    destruct (Hjac (column ii y)) as [_ Hsb]. rewrite Hv in Hp, Hsb. simpl in Hb', Hdp.
    destruct Hsb as [[=]|(Hs & -> & [= Hlv])].
    rewrite pad_df_dp_vector in Hp by done. injection Hp as <-.
    rewrite broadcast_exact in Hb' by done. injection Hb' as <-. simpl in Hdp.
    unfold get3. rewrite (nth_lookup_Some _ _ _ _ Hdp).
    destruct (decide (i < length v)) as [Hi|Hi].
    + rewrite (nth_indep _ [] (fzero :: replicate nnondyn fzero)) by (by rewrite length_map).
      by rewrite (map_nth (λ x, x :: replicate nnondyn fzero) v fzero i).
    + rewrite (nth_overflow v) by lia.
      rewrite (nth_overflow (map _ v)) by (rewrite length_map; lia). done.
  - intros ii i j Hii. by destruct (Hrest ii i j Hii).
Qed.


(** C6: on inputs of the promised shapes the closure returns the state
    sensitivities alone when [ndyn + nnondyn = 0], and the state and the
    parameter sensitivities, in this order, when [ndyn + nnondyn > 0]: the
    arrays have the sizes of the problem and hold at every node the blocks
    of the analytic function.  On any input, what the closure returns has
    the form that [ndyn + nnondyn] selects. *)
Theorem fun_jac_returns jac nstates ndyn nnondyn const t y params :
  jac_shaped jac nstates ndyn params const →
  length (m_data y) = nstates → 0 < m_cols y → m_cols y ≤ length t →
  (ndyn + nnondyn = 0 →
     ∃ dy, _fun_jac jac nstates ndyn nnondyn const t y params = Ok (JacOnly dy) ∧
           state_sensitivities jac nstates ndyn const t y params dy) ∧
  (0 < ndyn + nnondyn →
     ∃ dy dp, _fun_jac jac nstates ndyn nnondyn const t y params = Ok (JacBoth dy dp) ∧
              state_sensitivities jac nstates ndyn const t y params dy ∧
              parameter_sensitivities jac nstates ndyn nnondyn const t y params dp) ∧
  (∀ t' y' params' out,
     _fun_jac jac nstates ndyn nnondyn const t' y' params' = Ok out →
     (ndyn + nnondyn = 0 → ∃ dy, out = JacOnly dy) ∧
     (0 < ndyn + nnondyn → ∃ dy dp, out = JacBoth dy dp)).
Proof.
  intros Hjac Hy Hc Ht.
  destruct (fun_jac_sensitivities jac nstates ndyn nnondyn const t y params)
    as (dy & dp & Hout & Hdy & Hdp); try done.
  split_and!.
  - intros Hz. rewrite Hz in Hout. simpl in Hout. eauto.
  - intros Hpos. destruct (Nat.eqb_spec (ndyn + nnondyn) 0); [lia|]. eauto.
  - intros t' y' params' out Hform%fun_jac_out_form.
    destruct (Nat.eqb_spec (ndyn + nnondyn) 0); split; intros; first [done|lia].
Qed.

(** C7: when [nnondyn > 0], the parameter sensitivities the closure returns
    have [ndyn + nnondyn] columns, and at every node the last [nnondyn] of
    them are zero. *)
Theorem fun_jac_padding_zero jac nstates ndyn nnondyn const t y params dy dp :
  (∀ yi p k, wf (jac yi p k).2) →
  _fun_jac jac nstates ndyn nnondyn const t y params = Ok (JacBoth dy dp) →
  0 < nnondyn →
  a3_cols dp = ndyn + nnondyn ∧
  ∀ ii i j, ndyn ≤ j < ndyn + nnondyn → get3 dp i j ii = fzero.
Proof.
  intros Hwf Hout Hn. split.
  - revert Hout. unfold _fun_jac.
    destruct (m_data (transpose y)) as [|y0 ys]; [discriminate|].
    intros ([dy1 dp1] & Hloop & Hout)%bind_Ok_inv.
    destruct (ndyn + nnondyn =? 0); simplify_eq.
    by apply jac_loop_shape in Hloop as (-> & _).
  - intros ii i j [Hj _]. eapply get3_zero_padded; [|done].
    by eapply fun_jac_zero_padded.
Qed.

End Jacobian.

(** ** What a call leaves of the store it was given *)

Section Frame.
Context {F : Type} `{Scalar F}.
Variable solve_bvp :
  fun_t F → bc_t F → ndarray F → ndarray F → ndarray F → Z →
  option (fun_jac_t F) → option (bc_jac_t F) → res (bvp_out F).

(** The store of the caller, before the call. *)
Variable s0 : state F.

Lemma keeps_bind {A B} (m : M F A) (k : A → M F B) φ ψ :
  keeps s0 m φ → (∀ a, φ a → keeps s0 (k a) ψ) → keeps s0 (m ≫= k) ψ.
Proof.
  intros Hm Hk s Hs. destruct (Hm s Hs) as [Hg Ha].
  unfold mbind, M_bind. destruct (m s) as [s' [a|e]]; simpl in *.
  - by apply Hk; [apply Ha|].
  - split; [done|]. discriminate.
Qed.

Lemma keeps_ret {A} (a : A) (φ : A → Prop) : φ a → keeps s0 (mret a) φ.
Proof. intros Ha s Hs. split; [done|]. by intros ? [= <-]. Qed.

Lemma keeps_lift {A} (r : res A) : keeps s0 (lift r) (λ _, True).
Proof. by intros s Hs. Qed.

Lemma keeps_get_self : keeps s0 get_self (λ _, True).
Proof. by intros s Hs. Qed.

Lemma keeps_put_self self : keeps s0 (put_self self) (λ _, True).
Proof. intros s Hs. split; [|done]. exact Hs. Qed.

Lemma keeps_load_array l : keeps s0 (load_array l) (λ _, True).
Proof. by intros s Hs. Qed.

Lemma keeps_load_dict l : keeps s0 (load_dict l) (λ _, True).
Proof. by intros s Hs. Qed.

Lemma keeps_load_traj l : keeps s0 (load_traj l) (λ _, True).
Proof. by intros s Hs. Qed.

Lemma keeps_load_fresh l :
  length (st_trajs s0) ≤ l → keeps s0 (load_traj l) (fresh_traj s0).
Proof.
  intros Hl s Hs. split; [done|]. simpl. unfold lookup_ref.
  intros a Ha. case_match eqn:Ho; [|done]. injection Ha as <-.
  destruct Hs as (_ & _ & _ & Hfresh). eauto.
Qed.

Lemma prefix_app_r' {A} (l k : list A) x : l `prefix_of` k → l `prefix_of` k ++ [x].
Proof. intros [r ->]. exists (r ++ [x]). by rewrite app_assoc. Qed.

Lemma prefix_insert_ge {A} (l k : list A) i x :
  l `prefix_of` k → length l ≤ i → l `prefix_of` <[i := x]> k.
Proof.
  intros [r ->] Hi. exists (<[i - length l := x]> r).
  by rewrite insert_app_r_alt.
Qed.

Lemma keeps_alloc_array a : keeps s0 (alloc_array a) (λ l, length (st_arrays s0) ≤ l).
Proof.
  intros s (Ha & Hd & Ht & Hf). split.
  - split_and!; simpl; [by apply prefix_app_r'|done..].
  - simpl. intros l [= <-]. by apply prefix_length.
Qed.

Lemma keeps_alloc_dict d : keeps s0 (alloc_dict d) (λ l, length (st_dicts s0) ≤ l).
Proof.
  intros s (Ha & Hd & Ht & Hf). split.
  - split_and!; simpl; [done|by apply prefix_app_r'|done..].
  - simpl. intros l [= <-]. by apply prefix_length.
Qed.

Lemma keeps_alloc_traj o :
  fresh_traj s0 o → keeps s0 (alloc_traj o) (λ l, length (st_trajs s0) ≤ l).
Proof.
  intros Ho s (Ha & Hd & Ht & Hf). split.
  - split_and!; simpl; [done|done|by apply prefix_app_r'|].
    intros l o' Hl [Hlook|[_ Hlook]]%lookup_app_Some; [by eauto|].
    by apply list_lookup_singleton_Some in Hlook as [_ <-].
  - simpl. intros l [= <-]. by apply prefix_length.
Qed.

Lemma keeps_store_traj l o :
  length (st_trajs s0) ≤ l → fresh_traj s0 o → keeps s0 (store_traj l o) (λ _, True).
Proof.
  intros Hl Ho s (Ha & Hd & Ht & Hf). split; [|done].
  split_and!; simpl; [done|done|by apply prefix_insert_ge|].
  intros l' o' Hl' Hlook. destruct (decide (l = l')) as [<-|Hne].
  - apply list_lookup_insert_Some in Hlook as [(_ & <- & _)|[? _]]; done.
  - rewrite list_lookup_insert_ne in Hlook by done. eauto.
Qed.

Lemma keeps_store_dict l d :
  length (st_dicts s0) ≤ l → keeps s0 (store_dict l d) (λ _, True).
Proof.
  intros Hl s (Ha & Hd & Ht & Hf). split; [|done].
  split_and!; simpl; [done|by apply prefix_insert_ge|done..].
Qed.

Ltac fresh_fields :=
  unfold fresh_traj, array_refs in *; simpl in *;
  rewrite ?Forall_cons, ?Forall_nil in *; intuition auto.

Lemma keeps_assign obj (set : Trajectory → loc → Trajectory) a :
  length (st_trajs s0) ≤ obj →
  (∀ o l, fresh_traj s0 o → length (st_arrays s0) ≤ l → fresh_traj s0 (set o l)) →
  keeps s0 (assign obj set a) (λ _, True).
Proof.
  intros Hobj Hset. unfold assign.
  eapply keeps_bind; [apply keeps_alloc_array|]. intros l Hl.
  eapply keeps_bind; [by apply keeps_load_fresh|]. intros o Ho.
  apply keeps_store_traj; auto.
Qed.

Lemma keeps_aux_setitem obj key v :
  length (st_trajs s0) ≤ obj → keeps s0 (aux_setitem obj key v) (λ _, True).
Proof.
  intros Hobj. unfold aux_setitem.
  eapply keeps_bind; [by apply keeps_load_fresh|]. intros o [_ Ho].
  eapply keeps_bind; [apply keeps_load_dict|]. intros d _.
  by apply keeps_store_dict.
Qed.

Lemma keeps_copy obj :
  length (st_trajs s0) ≤ obj → keeps s0 (copy obj) (λ l, length (st_trajs s0) ≤ l).
Proof.
  intros Hobj. unfold copy.
  eapply keeps_bind; [by apply keeps_load_fresh|]. intros o Ho.
  by apply keeps_alloc_traj.
Qed.

Lemma keeps_deepcopy_array memo l :
  memo_fresh s0 memo →
  keeps s0 (deepcopy_array memo l) (λ r, memo_fresh s0 r.1 ∧ length (st_arrays s0) ≤ r.2).
Proof.
  intros Hmemo. unfold deepcopy_array. destruct (memo !! l) as [l'|] eqn:Hl.
  - apply keeps_ret. split; [done|]. by apply (Hmemo l l').
  - eapply keeps_bind; [apply keeps_load_array|]. intros a _.
    eapply keeps_bind; [apply keeps_alloc_array|]. intros l' Hl'.
    apply keeps_ret. split; [|done]. by apply map_Forall_insert_2.
Qed.

Lemma keeps_deepcopy obj : keeps s0 (deepcopy obj) (λ l, length (st_trajs s0) ≤ l).
Proof.
  unfold deepcopy.
  eapply keeps_bind; [apply keeps_load_traj|]. intros o _.
  eapply keeps_bind; [apply keeps_deepcopy_array, map_Forall_empty|]. intros [m1 t] [Hm1 Ht].
  eapply keeps_bind; [by apply keeps_deepcopy_array|]. intros [m2 y] [Hm2 Hy].
  eapply keeps_bind; [by apply keeps_deepcopy_array|]. intros [m3 q] [Hm3 Hq].
  eapply keeps_bind; [by apply keeps_deepcopy_array|]. intros [m4 p] [Hm4 Hp].
  eapply keeps_bind; [by apply keeps_deepcopy_array|]. intros [m5 nu] [Hm5 Hnu].
  eapply keeps_bind; [by apply keeps_deepcopy_array|]. intros [m6 k] [Hm6 Hk].
  eapply keeps_bind; [by apply keeps_deepcopy_array|]. intros [m7 lam] [Hm7 Hlam].
  eapply keeps_bind; [apply keeps_load_dict|]. intros d _.
  eapply keeps_bind; [apply keeps_alloc_dict|]. intros aux Haux.
  apply keeps_alloc_traj. fresh_fields.
Qed.

Lemma keeps_dimensions obj : keeps s0 (dimensions obj) (λ _, True).
Proof.
  unfold dimensions.
  eapply keeps_bind; [apply keeps_load_traj|]. intros o _.
  eapply keeps_bind; [apply keeps_load_array|]. intros y _.
  eapply keeps_bind; [apply keeps_lift|]. intros nstates _.
  eapply keeps_bind; [apply keeps_load_array|]. intros q _.
  eapply (keeps_bind _ _ (λ _, True)).
  { destruct (0 <? size q); [apply keeps_lift|].
    eapply keeps_bind; [apply keeps_get_self|]. intros self _.
    eapply keeps_bind; [apply keeps_put_self|]. intros _ _.
    by apply keeps_ret. }
  intros nquads _.
  eapply keeps_bind; [apply keeps_load_array|]. intros p _.
  eapply keeps_bind; [apply keeps_load_array|]. intros nu _.
  by apply keeps_ret.
Qed.

Lemma keeps_invoke obj nstates nquads ndyn nnondyn :
  keeps s0 (invoke solve_bvp obj nstates nquads ndyn nnondyn) (λ _, True).
Proof.
  unfold invoke.
  eapply keeps_bind; [apply keeps_load_traj|]. intros o _.
  eapply keeps_bind; [apply keeps_load_array|]. intros k _.
  eapply keeps_bind; [apply keeps_get_self|]. intros self _.
  eapply keeps_bind; [apply keeps_load_array|]. intros t _.
  eapply keeps_bind; [apply keeps_load_array|]. intros y _.
  eapply (keeps_bind _ _ (λ _, True)).
  { destruct (0 <? nquads); [|by apply keeps_ret].
    eapply keeps_bind; [apply keeps_load_array|]. intros q _.
    eapply keeps_bind; [apply keeps_lift|]. intros yq _.
    by apply keeps_ret. }
  intros y0 _.
  eapply keeps_bind; [apply keeps_load_array|]. intros p _.
  eapply keeps_bind; [apply keeps_load_array|]. intros nu _.
  eapply keeps_bind; [apply keeps_lift|]. intros p0 _.
  apply keeps_lift.
Qed.

Lemma keeps_compose obj nstates nquads ndyn nnondyn opt comp_time :
  length (st_trajs s0) ≤ obj →
  keeps s0 (compose obj nstates nquads ndyn nnondyn opt comp_time)
        (λ out, length (st_trajs s0) ≤ sol out).
Proof.
  intros Hobj. unfold compose.
  eapply keeps_bind; [by apply keeps_copy|]. intros l Hl.
  eapply keeps_bind; [apply keeps_assign; [done|intros; fresh_fields]|]. intros _ _.
  eapply keeps_bind; [apply keeps_lift|]. intros y _.
  eapply keeps_bind; [apply keeps_assign; [done|intros; fresh_fields]|]. intros _ _.
  eapply keeps_bind; [apply keeps_lift|]. intros q _.
  eapply keeps_bind; [apply keeps_assign; [done|intros; fresh_fields]|]. intros _ _.
  eapply keeps_bind; [apply keeps_assign; [done|intros; fresh_fields]|]. intros _ _.
  eapply keeps_bind; [apply keeps_assign; [done|intros; fresh_fields]|]. intros _ _.
  eapply keeps_bind; [apply keeps_assign; [done|intros; fresh_fields]|]. intros _ _.
  eapply keeps_bind; [by apply keeps_load_fresh|]. intros o Ho.
  eapply keeps_bind; [apply keeps_store_traj; [done|fresh_fields]|]. intros _ _.
  eapply keeps_bind; [by apply keeps_aux_setitem|]. intros _ _.
  eapply keeps_bind; [by apply keeps_aux_setitem|]. intros _ _.
  by apply keeps_ret.
Qed.

Lemma keeps_solve obj comp_time :
  keeps s0 (solve solve_bvp obj comp_time) (λ out, length (st_trajs s0) ≤ sol out).
Proof.
  unfold solve.
  eapply keeps_bind; [apply keeps_deepcopy|]. intros c Hc.
  eapply keeps_bind; [apply keeps_dimensions|]. intros [[[nstates nquads] ndyn] nnondyn] _.
  eapply keeps_bind; [apply keeps_invoke|]. intros opt _.
  by apply keeps_compose.
Qed.

Lemma grown_refl : grown s0 s0.
Proof.
  split_and!; [done..|]. intros l o Hl Ho. apply lookup_lt_Some in Ho. lia.
Qed.

End Frame.

(** ** What a call that returns has done *)

Section Run.
Context {F : Type} `{Scalar F}.
Variable solve_bvp :
  fun_t F → bc_t F → ndarray F → ndarray F → ndarray F → Z →
  option (fun_jac_t F) → option (bc_jac_t F) → res (bvp_out F).

Implicit Types (s : state F) (g : guess F) (memo : gmap loc loc) (self : SPBVP F).

Lemma M_bind_run {A B} (m : M F A) (k : A → M F B) s s' a :
  m s = (s', Ok a) → (m ≫= k) s = k a s'.
Proof. intros Hm. unfold mbind, M_bind. by rewrite Hm. Qed.

Lemma M_bind_raise {A B} (m : M F A) (k : A → M F B) s s' e :
  m s = (s', Raise e) → (m ≫= k) s = (s', Raise e).
Proof. intros Hm. unfold mbind, M_bind. by rewrite Hm. Qed.

Lemma lookup_ref_Some {A} l (h : list A) a : h !! l = Some a → lookup_ref l h = Ok a.
Proof. unfold lookup_ref. by intros ->. Qed.

Lemma read_guess_holds (s : state F) obj g :
  read_guess s obj = Some g ↔ ∃ o, holds s obj o g.
Proof.
  unfold read_guess, holds. split.
  - intros Hg. apply bind_Some in Hg as (o & Ho & Hg). exists o.
    repeat (apply bind_Some in Hg as (? & ? & Hg)).
    injection Hg as <-. simpl. done.
  - intros (o & -> & Ht & Hy & Hq & Hp & Hnu & Hk & Hlam & Haux & Hc). simpl.
    rewrite Ht, Hy, Hq, Hp, Hnu, Hk, Hlam, Haux. simpl. destruct g. simpl in *. by subst.
Qed.

Lemma more_arrays_refl s : more_arrays s s.
Proof. by split_and!. Qed.

Lemma more_arrays_trans s1 s2 s3 :
  more_arrays s1 s2 → more_arrays s2 s3 → more_arrays s1 s3.
Proof.
  intros (? & ? & ? & ?) (? & ? & ? & ?). split_and!; try congruence. by etrans.
Qed.

Lemma more_arrays_lookup s s' l a :
  more_arrays s s' → st_arrays s !! l = Some a → st_arrays s' !! l = Some a.
Proof. intros (_ & Hp & _) Hl. by eapply prefix_lookup_Some. Qed.

Lemma memo_copies_more s s' memo :
  more_arrays s s' → memo_copies s memo → memo_copies s' memo.
Proof.
  intros Hs Hm l l' Hl. destruct (Hm l l' Hl) as (a & ? & ?).
  exists a. split; by eapply more_arrays_lookup.
Qed.

Lemma deepcopy_array_run memo l s a :
  st_arrays s !! l = Some a → memo_copies s memo →
  ∃ s' memo' l', deepcopy_array memo l s = (s', Ok (memo', l')) ∧
    more_arrays s s' ∧ memo_copies s' memo' ∧ st_arrays s' !! l' = Some a.
Proof.
  intros Hl Hmemo. unfold deepcopy_array. destruct (memo !! l) as [l'|] eqn:Hm.
  - exists s, memo, l'. split_and!; [done|apply more_arrays_refl|done|].
    destruct (Hmemo l l' Hm) as (a' & ? & ?). congruence.
  - erewrite M_bind_run; [|unfold load_array; by rewrite (lookup_ref_Some _ _ _ Hl)].
    erewrite M_bind_run; [|reflexivity].
    eexists _, _, _. split; [reflexivity|].
    assert (more_arrays s
              {| st_self := st_self s; st_arrays := st_arrays s ++ [a];
                 st_dicts := st_dicts s; st_trajs := st_trajs s |}) as Hmore.
    { split_and!; simpl; try done. by apply prefix_app_r. }
    split_and!; [done| |simpl; by apply list_lookup_middle].
    intros l1 l1' [[<- <-]|[? Hl1]]%lookup_insert_Some.
    + exists a. simpl. split; [by apply lookup_app_l_Some|by apply list_lookup_middle].
    + by apply (memo_copies_more s _ memo Hmore Hmemo).
Qed.

Lemma deepcopy_run s obj o g :
  holds s obj o g →
  ∃ s' c o', deepcopy obj s = (s', Ok c) ∧ holds s' c o' g ∧ st_self s' = st_self s.
Proof.
  intros (Ho & Ht & Hy & Hq & Hp & Hnu & Hk & Hlam & Haux & Hc). unfold deepcopy.
  erewrite M_bind_run; [|unfold load_traj; by rewrite (lookup_ref_Some _ _ _ Ho)].
  destruct (deepcopy_array_run ∅ (tr_t o) s _ Ht) as (s1 & m1 & t & E1 & Hs1 & Hm1 & Ht').
  { intros ? ? ?. simplify_map_eq. }
  destruct (deepcopy_array_run m1 (tr_y o) s1 (g_y g)) as (s2 & m2 & y & E2 & Hs2 & Hm2 & Hy');
    [by eapply more_arrays_lookup|done|].
  pose proof (more_arrays_trans _ _ _ Hs1 Hs2) as H02.
  destruct (deepcopy_array_run m2 (tr_q o) s2 (g_q g)) as (s3 & m3 & q & E3 & Hs3 & Hm3 & Hq');
    [by eapply more_arrays_lookup|done|].
  pose proof (more_arrays_trans _ _ _ H02 Hs3) as H03.
  destruct (deepcopy_array_run m3 (tr_p o) s3 (g_p g)) as (s4 & m4 & p & E4 & Hs4 & Hm4 & Hp');
    [by eapply more_arrays_lookup|done|].
  pose proof (more_arrays_trans _ _ _ H03 Hs4) as H04.
  destruct (deepcopy_array_run m4 (tr_nu o) s4 (g_nu g)) as (s5 & m5 & nu & E5 & Hs5 & Hm5 & Hnu');
    [by eapply more_arrays_lookup|done|].
  pose proof (more_arrays_trans _ _ _ H04 Hs5) as H05.
  destruct (deepcopy_array_run m5 (tr_k o) s5 (g_k g)) as (s6 & m6 & k & E6 & Hs6 & Hm6 & Hk');
    [by eapply more_arrays_lookup|done|].
  pose proof (more_arrays_trans _ _ _ H05 Hs6) as H06.
  destruct (deepcopy_array_run m6 (tr_lam o) s6 (g_lam g)) as (s7 & m7 & lam & E7 & Hs7 & Hm7 & Hlam');
    [by eapply more_arrays_lookup|done|].
  pose proof (more_arrays_trans _ _ _ H06 Hs7) as H07.
  pose proof (more_arrays_trans _ _ _ Hs6 Hs7) as H67.
  pose proof (more_arrays_trans _ _ _ Hs5 H67) as H57.
  pose proof (more_arrays_trans _ _ _ Hs4 H57) as H47.
  pose proof (more_arrays_trans _ _ _ Hs3 H47) as H37.
  pose proof (more_arrays_trans _ _ _ Hs2 H37) as H27.
  pose proof (more_arrays_trans _ _ _ Hs1 H27) as H17.
  erewrite M_bind_run; [|exact E1]. simpl.
  erewrite M_bind_run; [|exact E2]. simpl.
  erewrite M_bind_run; [|exact E3]. simpl.
  erewrite M_bind_run; [|exact E4]. simpl.
  erewrite M_bind_run; [|exact E5]. simpl.
  erewrite M_bind_run; [|exact E6]. simpl.
  erewrite M_bind_run; [|exact E7]. simpl.
  destruct H07 as (Hself & _ & Hd7 & Ht7).
  erewrite M_bind_run; [|unfold load_dict; rewrite Hd7; by rewrite (lookup_ref_Some _ _ _ Haux)].
  erewrite M_bind_run; [|reflexivity].
  eexists _, _, _. split; [reflexivity|]. split; [|done].
  split_and!; simpl; try (by apply list_lookup_middle); try done.
  all: eauto using more_arrays_lookup.
Qed.

Lemma with_self_same s : with_self s (st_self s) = s.
Proof. by destruct s. Qed.

Lemma holds_with_self s self obj o g : holds s obj o g → holds (with_self s self) obj o g.
Proof. done. Qed.

Lemma lift_bind {A B} (r : res A) (k : A → M F B) s :
  (lift r ≫= k) s = match r with Ok a => k a s | Raise e => (s, Raise e) end.
Proof. unfold mbind, M_bind, lift. by destruct r. Qed.

Lemma load_array_run (s : state F) l a : st_arrays s !! l = Some a → load_array l s = (s, Ok a).
Proof. intros Hl. unfold load_array. by rewrite (lookup_ref_Some _ _ _ Hl). Qed.

Lemma load_dict_run (s : state F) l d : st_dicts s !! l = Some d → load_dict l s = (s, Ok d).
Proof. intros Hl. unfold load_dict. by rewrite (lookup_ref_Some _ _ _ Hl). Qed.

Lemma load_traj_run (s : state F) l o : st_trajs s !! l = Some o → load_traj l s = (s, Ok o).
Proof. intros Hl. unfold load_traj. by rewrite (lookup_ref_Some _ _ _ Hl). Qed.

Lemma dimensions_run s obj o g :
  holds s obj o g →
  dimensions obj s = (with_self s (solver_after (st_self s) g), sizes g).
Proof.
  intros (Ho & Ht & Hy & Hq & Hp & Hnu & Hk & Hlam & Haux & Hc).
  unfold dimensions, sizes, solver_after.
  erewrite M_bind_run; [|by apply load_traj_run].
  erewrite M_bind_run; [|by apply load_array_run].
  rewrite lift_bind. destruct (shape1 (g_y g)) as [nstates|e]; simpl.
  2: { by rewrite with_self_same. }
  erewrite M_bind_run; [|by apply load_array_run].
  destruct (0 <? size (g_q g)); simpl.
  - rewrite with_self_same. unfold mbind at 1, M_bind at 1. unfold lift.
    destruct (shape1 (g_q g)) as [nquads|e]; simpl; [|done].
    erewrite M_bind_run; [|by apply load_array_run].
    erewrite M_bind_run; [|by apply load_array_run]. done.
  - unfold mbind at 1, M_bind at 1. simpl.
    erewrite M_bind_run; [|by apply load_array_run].
    erewrite M_bind_run; [|by apply load_array_run]. done.
Qed.

Lemma invoke_run s obj o g nstates nquads ndyn nnondyn :
  holds s obj o g →
  invoke solve_bvp obj nstates nquads ndyn nnondyn s
  = (s, engine_call solve_bvp (st_self s) g nstates nquads ndyn nnondyn).
Proof.
  intros (Ho & Ht & Hy & Hq & Hp & Hnu & Hk & Hlam & Haux & Hc).
  unfold invoke, engine_call.
  erewrite M_bind_run; [|by apply load_traj_run].
  erewrite M_bind_run; [|by apply load_array_run].
  erewrite M_bind_run; [|reflexivity].
  erewrite M_bind_run; [|by apply load_array_run].
  erewrite M_bind_run; [|by apply load_array_run].
  destruct (0 <? nquads).
  - unfold mbind at 1, M_bind at 1.
    erewrite M_bind_run; [|by apply load_array_run].
    rewrite lift_bind. destruct (hstack (g_y g) (g_q g)) as [yq|e]; simpl; [|done].
    erewrite M_bind_run; [|by apply load_array_run].
    erewrite M_bind_run; [|by apply load_array_run].
    rewrite lift_bind. by destruct (hstack (g_p g) (g_nu g)).
  - unfold mbind at 1, M_bind at 1. simpl.
    erewrite M_bind_run; [|by apply load_array_run].
    erewrite M_bind_run; [|by apply load_array_run].
    rewrite lift_bind. by destruct (hstack (g_p g) (g_nu g)).
Qed.

Lemma insert_last {A} (l : list A) x y : <[length l := y]> (l ++ [x]) = l ++ [y].
Proof. rewrite insert_app_r_alt by lia. by rewrite Nat.sub_diag. Qed.

Lemma copy_run self (A : list (ndarray F)) (D : list (gmap string (auxval F))) Tj obj o :
  Tj !! obj = Some o →
  copy obj {| st_self := self; st_arrays := A; st_dicts := D; st_trajs := Tj |}
  = ({| st_self := self; st_arrays := A; st_dicts := D; st_trajs := Tj ++ [o] |},
     Ok (length Tj)).
Proof.
  intros Ho. unfold copy. erewrite M_bind_run; [|by apply load_traj_run]. done.
Qed.

Lemma assign_last self (A : list (ndarray F)) (D : list (gmap string (auxval F))) Tj o set a :
  assign (length Tj) set a
    {| st_self := self; st_arrays := A; st_dicts := D; st_trajs := Tj ++ [o] |}
  = ({| st_self := self; st_arrays := A ++ [a]; st_dicts := D;
        st_trajs := Tj ++ [set o (length A)] |}, Ok ()).
Proof.
  unfold assign. erewrite M_bind_run; [|reflexivity].
  erewrite M_bind_run; [|apply load_traj_run; simpl; apply list_lookup_middle; done].
  unfold store_traj. simpl. by rewrite insert_last.
Qed.

Lemma store_traj_last self (A : list (ndarray F)) (D : list (gmap string (auxval F))) Tj o o' :
  store_traj (length Tj) o'
    {| st_self := self; st_arrays := A; st_dicts := D; st_trajs := Tj ++ [o] |}
  = ({| st_self := self; st_arrays := A; st_dicts := D; st_trajs := Tj ++ [o'] |}, Ok ()).
Proof. unfold store_traj. simpl. by rewrite insert_last. Qed.

Lemma aux_setitem_last self (A : list (ndarray F)) (D : list (gmap string (auxval F))) Tj o d key v :
  D !! tr_aux o = Some d →
  aux_setitem (length Tj) key v
    {| st_self := self; st_arrays := A; st_dicts := D; st_trajs := Tj ++ [o] |}
  = ({| st_self := self; st_arrays := A; st_dicts := <[tr_aux o := <[key := v]> d]> D;
        st_trajs := Tj ++ [o] |}, Ok ()).
Proof.
  intros Hd. unfold aux_setitem.
  erewrite M_bind_run; [|apply load_traj_run; simpl; apply list_lookup_middle; done].
  erewrite M_bind_run; [|by apply load_dict_run]. done.
Qed.

Lemma lookup_app_offset {A} (l k : list A) i : (l ++ k) !! (length l + i) = k !! i.
Proof. rewrite lookup_app_r by lia. f_equal. lia. Qed.

Lemma compose_run s obj o g nstates nquads ndyn nnondyn opt comp_time y q :
  holds s obj o g →
  split_y nstates opt = Ok y → split_q nstates nquads opt = Ok q →
  ∃ s' out o',
    compose obj nstates nquads ndyn nnondyn opt comp_time s = (s', Ok out) ∧
    holds s' (sol out) o' (solution g nstates nquads ndyn nnondyn opt comp_time y q) ∧
    st_self s' = st_self s ∧
    success out = opt_success opt ∧ message out = opt_message opt ∧
    rms_residuals out = opt_rms_residuals opt ∧ niter out = opt_niter opt.
Proof.
  intros (Ho & Ht & Hy & Hq & Hp & Hnu & Hk & Hlam & Haux & Hc) Hsy Hsq.
  destruct s as [self A D Tj]. simpl in *. unfold compose.
  erewrite M_bind_run; [|by apply copy_run].
  erewrite M_bind_run; [|apply assign_last].
  rewrite lift_bind, Hsy.
  erewrite M_bind_run; [|apply assign_last].
  rewrite lift_bind, Hsq.
  erewrite M_bind_run; [|apply assign_last].
  erewrite M_bind_run; [|apply assign_last].
  erewrite M_bind_run; [|apply assign_last].
  erewrite M_bind_run; [|apply assign_last].
  erewrite M_bind_run; [|apply load_traj_run; simpl; apply list_lookup_middle; done].
  erewrite M_bind_run; [|apply store_traj_last].
  erewrite M_bind_run; [|by apply aux_setitem_last].
  pose proof (lookup_lt_Some _ _ _ Haux) as Hlt.
  erewrite M_bind_run; [|apply aux_setitem_last; simpl; by apply list_lookup_insert_eq].
  eexists _, _, _. split; [reflexivity|]. simpl. split; [|done].
  rewrite <- !app_assoc. simpl. rewrite !length_app. simpl.
  unfold holds. split_and!.
  - simpl. by apply list_lookup_middle.
  - simpl. by apply list_lookup_middle.
  - simpl. by rewrite lookup_app_offset.
  - simpl. by rewrite lookup_app_offset.
  - simpl. by rewrite lookup_app_offset.
  - simpl. by rewrite lookup_app_offset.
  - simpl. by apply lookup_app_l_Some.
  - simpl. by rewrite lookup_app_offset.
  - simpl. rewrite list_insert_insert_eq. by apply list_lookup_insert_eq.
  - done.
Qed.

Lemma solve_run s obj o g nstates nquads ndyn nnondyn opt comp_time y q :
  holds s obj o g →
  sizes g = Ok (nstates, nquads, ndyn, nnondyn) →
  engine_call solve_bvp (solver_after (st_self s) g) g nstates nquads ndyn nnondyn = Ok opt →
  split_y nstates opt = Ok y → split_q nstates nquads opt = Ok q →
  ∃ s' out o',
    solve solve_bvp obj comp_time s = (s', Ok out) ∧
    holds s' (sol out) o' (solution g nstates nquads ndyn nnondyn opt comp_time y q) ∧
    st_self s' = solver_after (st_self s) g ∧
    success out = opt_success opt ∧ message out = opt_message opt ∧
    rms_residuals out = opt_rms_residuals opt ∧ niter out = opt_niter opt.
Proof.
  intros Hg Hsizes Hcall Hy Hq. unfold solve.
  destruct (deepcopy_run s obj o g Hg) as (s1 & c & o1 & E1 & Hg1 & Hself).
  rewrite <- Hself in Hcall.
  erewrite M_bind_run; [|exact E1].
  erewrite M_bind_run; [|rewrite (dimensions_run s1 c o1 g Hg1), Hsizes; reflexivity].
  simpl.
  erewrite M_bind_run;
    [|rewrite (invoke_run _ c o1 g); [|by apply holds_with_self]; simpl;
      rewrite Hcall; reflexivity].
  destruct (compose_run (with_self s1 (solver_after (st_self s1) g)) c o1 g
              nstates nquads ndyn nnondyn opt comp_time y q)
    as (s' & out & o' & E4 & Hg' & Hself' & Hres); [by apply holds_with_self|done..|].
  exists s', out, o'. split; [exact E4|]. split; [done|]. split; [|done].
  by rewrite Hself', <- Hself.
Qed.

Lemma grown_holds s0 s obj o g : grown s0 s → holds s0 obj o g → holds s obj o g.
Proof.
  intros (Ha & Hd & Ht & _) (Ho & H1 & H2 & H3 & H4 & H5 & H6 & H7 & H8 & Hc).
  unfold holds. split_and!; try done; by eapply prefix_lookup_Some.
Qed.

Lemma holds_refs_old s obj o g :
  holds s obj o g →
  obj < length (st_trajs s) ∧ tr_aux o < length (st_dicts s) ∧
  Forall (λ l, l < length (st_arrays s)) (array_refs o).
Proof.
  intros (Ho & H1 & H2 & H3 & H4 & H5 & H6 & H7 & H8 & Hc). split_and!.
  - by eapply lookup_lt_Some.
  - by eapply lookup_lt_Some.
  - unfold array_refs. repeat constructor; by eapply lookup_lt_Some.
Qed.

(** C5: whatever the engine does and whether the call returns or raises, the
    guess of the caller reads after the call as it read before, every object
    of the caller's store is as it was, and the solution a call returns is a
    new object none of whose fields refers to an object the caller's guess
    refers to. *)
Theorem solve_leaves_guess s obj comp_time g :
  read_guess s obj = Some g →
  read_guess (solve solve_bvp obj comp_time s).1 obj = Some g ∧
  st_arrays s `prefix_of` st_arrays (solve solve_bvp obj comp_time s).1 ∧
  st_dicts s `prefix_of` st_dicts (solve solve_bvp obj comp_time s).1 ∧
  st_trajs s `prefix_of` st_trajs (solve solve_bvp obj comp_time s).1 ∧
  ∀ out o o',
    (solve solve_bvp obj comp_time s).2 = Ok out →
    st_trajs s !! obj = Some o →
    st_trajs (solve solve_bvp obj comp_time s).1 !! sol out = Some o' →
    sol out ≠ obj ∧ fresh_traj s o' ∧ tr_aux o' ≠ tr_aux o ∧
    ∀ l, l ∈ array_refs o' → l ∉ array_refs o.
Proof.
  intros Hg. apply read_guess_holds in Hg as [o Ho].
  destruct (keeps_solve solve_bvp s obj comp_time s (grown_refl s)) as [Hgrown Hsol].
  destruct (holds_refs_old s obj o g Ho) as (Hobj & Haux & Hrefs).
  split_and!.
  - apply read_guess_holds. exists o. by eapply grown_holds.
  - by destruct Hgrown as (? & _).
  - by destruct Hgrown as (_ & ? & _).
  - by destruct Hgrown as (_ & _ & ? & _).
  - intros out o1 o' Hout Ho1 Ho'.
    assert (o1 = o) as -> by (destruct Ho as [Ho _]; congruence).
    specialize (Hsol out Hout). destruct Hgrown as (_ & _ & _ & Hfresh).
    pose proof (Hfresh _ _ Hsol Ho') as [Hnew Hnewaux].
    split_and!; [lia|done|lia|].
    intros l Hl Hl'. rewrite Forall_forall in Hnew, Hrefs.
    specialize (Hnew l Hl). specialize (Hrefs l Hl'). lia.
Qed.

Lemma slice_from_0 n (v : list F) : slice 0 n v = take n v.
Proof. unfold slice. by rewrite Nat.sub_0_r. Qed.

Lemma slice_rest n k (v : list F) : length v = n + k → slice n (n + k) v = drop n v.
Proof.
  intros Hv. unfold slice. replace (n + k - n) with k by lia.
  apply take_ge. rewrite length_drop. lia.
Qed.

(** C9: from an engine output whose matrix has [nstates + nquads] rows, one
    column per node, the composer returns a solution whose [y] has the first
    [nstates] entries of every node and whose [q] has the [nquads] entries
    that follow, so that the two side by side are the node; [lam] is a matrix
    of zeros of the shape of [y]; the parameters of the engine are split into
    the first [ndyn] and the [nnondyn] that follow, and both are empty when
    the engine returns none. *)
Theorem compose_splits s obj g nstates nquads ndyn nnondyn opt comp_time (m : matrix F) :
  read_guess s obj = Some g →
  opt_y opt = Arr2 m → wf_matrix m → m_rows m = nstates + nquads →
  ∃ s' out g' Y Q,
    compose obj nstates nquads ndyn nnondyn opt comp_time s = (s', Ok out) ∧
    read_guess s' (sol out) = Some g' ∧
    g_t g' = opt_x opt ∧ g_y g' = Arr2 Y ∧ g_q g' = Arr2 Q ∧
    m_rows Y = m_cols m ∧ m_cols Y = nstates ∧
    m_rows Q = m_cols m ∧ m_cols Q = nquads ∧
    (∀ j, j < m_cols m →
       ∃ ry rq, m_data Y !! j = Some ry ∧ m_data Q !! j = Some rq ∧
                length ry = nstates ∧ length rq = nquads ∧
                ry ++ rq = column j m) ∧
    g_lam g' = Arr2 (zeros (m_rows Y) (m_cols Y)) ∧
    (∀ pv, opt_p opt = Some (Arr1 pv) → length pv = ndyn + nnondyn →
       ∃ a b, g_p g' = Arr1 a ∧ g_nu g' = Arr1 b ∧
              length a = ndyn ∧ length b = nnondyn ∧ a ++ b = pv) ∧
    (opt_p opt = None → g_p g' = Arr1 [] ∧ g_nu g' = Arr1 []).
Proof.
  intros [o Ho]%read_guess_holds Hy [Hrows Hwidth] Hr.
  destruct (compose_run s obj o g nstates nquads ndyn nnondyn opt comp_time
              (Arr2 (Mat (m_cols m) (Nat.min nstates (m_rows m) - Nat.min 0 (m_rows m))
                         (map (slice 0 nstates) (m_data (transpose m)))))
              (Arr2 (Mat (m_cols m)
                         (Nat.min (nstates + nquads) (m_rows m) - Nat.min nstates (m_rows m))
                         (map (slice nstates (nstates + nquads)) (m_data (transpose m))))))
    as (s' & out & o' & Hrun & Hg' & _); [done|unfold split_y|unfold split_q|];
    [by rewrite Hy..|].
  eexists s', out, _, _, _. split; [exact Hrun|].
  split; [apply read_guess_holds; eauto|]. simpl.
  split_and!; try done; try (simpl; lia).
  - intros j Hj. simpl. eexists _, _. rewrite !list_lookup_fmap, !lookup_seq_lt by done. simpl.
    split; [done|]. split; [done|].
    assert (length (column j m) = nstates + nquads) as Hlen
      by (by rewrite length_column, Hrows).
    rewrite slice_from_0, (slice_rest nstates nquads _ Hlen).
    rewrite length_take, length_drop, take_drop. split_and!; [lia|lia|done].
  - intros pv Hp Hpv. unfold split_p, split_nu. rewrite Hp. simpl.
    eexists _, _. split; [done|]. split; [done|].
    rewrite slice_from_0, (slice_rest ndyn nnondyn _ Hpv).
    rewrite length_take, length_drop, take_drop. split_and!; [lia|lia|done].
  - intros Hp. unfold split_p, split_nu. by rewrite Hp.
Qed.

(** C10: for every outcome the engine returns to the call [solve] makes of
    it, [solve] returns a result that carries the success flag, the message,
    the residuals and the number of iterations of that outcome; an outcome
    that reports a failure with a message is returned as such, not raised. *)
Theorem solve_reports_engine_outcome s obj g nstates nquads ndyn nnondyn opt comp_time
    (m : matrix F) :
  read_guess s obj = Some g →
  sizes g = Ok (nstates, nquads, ndyn, nnondyn) →
  engine_call solve_bvp (solver_after (st_self s) g) g nstates nquads ndyn nnondyn = Ok opt →
  opt_y opt = Arr2 m →
  ∃ s' out,
    solve solve_bvp obj comp_time s = (s', Ok out) ∧
    success out = opt_success opt ∧ message out = opt_message opt ∧
    rms_residuals out = opt_rms_residuals opt ∧ niter out = opt_niter opt ∧
    (opt_success opt = false → opt_message opt ≠ EmptyString →
       success out = false ∧ message out ≠ EmptyString).
Proof.
  intros [o Ho]%read_guess_holds Hsizes Hcall Hy.
  edestruct (solve_run s obj o g nstates nquads ndyn nnondyn opt comp_time)
    as (s' & out & o' & Hrun & _ & _ & Hs & Hm & Hr & Hn); [done..| | |].
  - unfold split_y. rewrite Hy. reflexivity.
  - unfold split_q. rewrite Hy. reflexivity.
  - exists s', out. split_and!; try done. intros Hf Hmsg. by rewrite Hs, Hm.
Qed.

End Run.

(** ** The adapter on the small problem *)

Section OnExamples.
Import Examples.

(** C1: a call on a guess without quadratures replaces the quadrature
    function of the solver, and a later call on a guess with a quadrature
    returns another quadrature matrix than it returns without the first
    call. *)
Theorem second_call_depends_on_first :
  quadrature_function (st_self store0) [] [] (Arr1 []) = Arr1 [9]%Z ∧
  quadrature_function (st_self (solve engine_once 0 0%Z store0).1) [] [] (Arr1 [])
  = Arr1 [] ∧
  returned_q (solve engine_once 1 0%Z store0)
  = Some (Arr2 (Mat 2 1 [[9]; [9]]%Z)) ∧
  returned_q (solve engine_once 1 0%Z (solve engine_once 0 0%Z store0).1)
  = Some (Arr2 (Mat 2 0 [[]; []])).
Proof. split_and!; vm_compute; reflexivity. Qed.

(** C2: with one state and one quadrature the analytic function is called
    with the two entries of the node, the quadrature among them, and with
    the one dynamic parameter. *)
Theorem fun_jac_receives_quadratures :
  _fun_jac jac_probe 1 1 1 (Arr1 []) [0]%Z (Mat 2 1 [[1]; [2]]%Z) [5; 6]%Z
  = Ok (JacBoth (Arr3 2 2 1 [[[2; 2]; [2; 2]]]%Z) (Arr3 2 2 1 [[[1; 0]; [1; 0]]]%Z)).
Proof. vm_compute. reflexivity. Qed.



(** C4: with two states and one quadrature the closure raises, on blocks of
    the promised shapes and also when the state block has the shape of the
    slot; without the quadrature it returns. *)
Theorem fun_jac_raises_with_quadratures :
  _fun_jac jac_two 2 1 1 (Arr1 []) [0; 1]%Z y_two_quad [5; 6]%Z = Raise ValueError ∧
  _fun_jac jac_wide 2 1 1 (Arr1 []) [0; 1]%Z y_two_quad [5; 6]%Z = Raise ValueError ∧
  is_ok (_fun_jac jac_two 2 1 1 (Arr1 []) [0; 1]%Z y_two [5; 6]%Z) = true.
Proof. split_and!; vm_compute; reflexivity. Qed.

Lemma solve_leaves_guess_witness :
  read_guess store0 0 = Some guess0 ∧
  read_guess (solve engine_once 0 0%Z store0).1 0 = Some guess0.
Proof.
  split; [reflexivity|].
  refine (proj1 (solve_leaves_guess engine_once store0 0 0%Z guess0 _)). reflexivity.
Defined.

Lemma fun_jac_returns_witness :
  (∃ dy, _fun_jac jac_two_free 2 0 0 (Arr1 []) [0; 1]%Z y_two [] = Ok (JacOnly dy) ∧
         state_sensitivities jac_two_free 2 0 (Arr1 []) [0; 1]%Z y_two [] dy) ∧
  (∃ dy dp, _fun_jac jac_two 2 1 1 (Arr1 []) [0; 1]%Z y_two [5; 6]%Z = Ok (JacBoth dy dp) ∧
            state_sensitivities jac_two 2 1 (Arr1 []) [0; 1]%Z y_two [5; 6]%Z dy ∧
            parameter_sensitivities jac_two 2 1 1 (Arr1 []) [0; 1]%Z y_two [5; 6]%Z dp).
Proof.
  split.
  - refine (proj1 (fun_jac_returns jac_two_free 2 0 0 (Arr1 []) [0; 1]%Z y_two [] _ _ _ _) _);
      [intros yi; split; [reflexivity|left; reflexivity]
      | reflexivity | simpl; lia | simpl; lia | reflexivity].
  - refine (proj1 (proj2 (fun_jac_returns jac_two 2 1 1 (Arr1 []) [0; 1]%Z y_two [5; 6]%Z
                            _ _ _ _)) _);
      [intros yi; split; [reflexivity|left; reflexivity]
      | reflexivity | simpl; lia | simpl; lia | lia].
Defined.

Lemma fun_jac_padding_zero_witness :
  a3_cols (Arr3 2 2 2 [[[7; 0]; [8; 0]]; [[7; 0]; [8; 0]]]%Z) = 1 + 1 ∧
  ∀ ii i j, (1 ≤ j < 1 + 1) →
    get3 (Arr3 2 2 2 [[[7; 0]; [8; 0]]; [[7; 0]; [8; 0]]]%Z) i j ii = 0%Z.
Proof.
  refine (fun_jac_padding_zero jac_two 2 1 1 (Arr1 []) [0; 1]%Z y_two [5; 6]%Z
           (Arr3 2 2 2 [[[1; 2]; [3; 4]]; [[1; 2]; [3; 4]]]%Z)
           (Arr3 2 2 2 [[[7; 0]; [8; 0]]; [[7; 0]; [8; 0]]]%Z) _ _ _);
    [intros; split; [reflexivity|repeat constructor] | reflexivity | lia].
Defined.

Lemma fun_stacks_witness :
  ∃ out, _fun solver0 1 1 0 (Arr1 []) [0; 1]%Z y_two [] = Ok (Arr2 out) ∧
         m_cols out = m_cols y_two ∧
         ((0 < 1) → m_rows out = (1 + 1) ∧
            ∀ j, (j < m_cols y_two) →
              column j out = take 1 (column j y_two) ++ [9]%Z) ∧
         (1 = 0 → m_rows out = 1 ∧
            ∀ j, (j < m_cols y_two) → column j out = take 1 (column j y_two)).
Proof.
  refine (proj1 (fun_stacks_derivative_and_quadrature solver0 1 1 0 (Arr1 []) [0; 1]%Z y_two []
           (λ j, take 1 (column j y_two)) (λ _, [9]%Z) 1 1 _ _ _));
    [simpl; lia
    | intros [|[|j]] Hj; [split; reflexivity..|simpl in Hj; lia]
    | intros _ [|[|j]] Hj; [split; reflexivity..|simpl in Hj; lia]].
Defined.

Lemma compose_splits_witness :
  read_guess store0 1 = Some guess1 ∧
  ∃ s' out g' Y Q,
    compose 1 1 1 0 0 opt1 0%Z store0 = (s', Ok out) ∧
    read_guess s' (sol out) = Some g' ∧
    g_t g' = opt_x opt1 ∧ g_y g' = Arr2 Y ∧ g_q g' = Arr2 Q ∧
    m_rows Y = 2 ∧ m_cols Y = 1 ∧ m_rows Q = 2 ∧ m_cols Q = 1 ∧
    (∀ j, j < 2 →
       ∃ ry rq, m_data Y !! j = Some ry ∧ m_data Q !! j = Some rq ∧
                length ry = 1 ∧ length rq = 1 ∧
                ry ++ rq = column j (Mat 2 2 [[1; 2]; [9; 9]]%Z)) ∧
    g_lam g' = Arr2 (zeros (m_rows Y) (m_cols Y)) ∧
    (∀ pv, opt_p opt1 = Some (Arr1 pv) → length pv = 0 + 0 →
       ∃ a b, g_p g' = Arr1 a ∧ g_nu g' = Arr1 b ∧
              length a = 0 ∧ length b = 0 ∧ a ++ b = pv) ∧
    (opt_p opt1 = None → g_p g' = Arr1 [] ∧ g_nu g' = Arr1 []).
Proof.
  split; [reflexivity|].
  refine (compose_splits store0 1 guess1 1 1 0 0 opt1 0%Z (Mat 2 2 [[1; 2]; [9; 9]]%Z) _ _ _ _);
    [reflexivity | reflexivity | split; [reflexivity|repeat constructor] | reflexivity].
Defined.

Lemma solve_reports_engine_outcome_witness :
  engine_call engine_once (solver_after (st_self store0) guess1) guess1 1 1 0 0 = Ok opt1 ∧
  ∃ s' out,
    solve engine_once 1 0%Z store0 = (s', Ok out) ∧
    success out = false ∧ message out = out_of_nodes ∧
    rms_residuals out = Arr1 [] ∧ niter out = 1%Z ∧
    (false = false → out_of_nodes ≠ EmptyString →
       success out = false ∧ message out ≠ EmptyString).
Proof.
  split; [reflexivity|].
  refine (solve_reports_engine_outcome engine_once store0 1 guess1 1 1 0 0 opt1 0%Z
            (Mat 2 2 [[1; 2]; [9; 9]]%Z) _ _ _ _); reflexivity.
Defined.

End OnExamples.

(** ** The other closures, the sizes and the call as a whole *)

Section MoreClosures.
Context {F : Type} `{Scalar F}.

Lemma take_slice_whole n k (v : list F) :
  length v = n + k →
  take n v ++ slice n (n + k) v = v ∧ length (take n v) = n ∧ length (slice n (n + k) v) = k.
Proof.
  intros Hv. rewrite (slice_rest n k v Hv), take_drop, length_take, length_drop.
  split_and!; [done|lia|lia].
Qed.

(** The boundary closure and the boundary-Jacobian closure hand the same
    vectors to the function they wrap.  Without quadratures these are the two
    boundary vectors as they are; with quadratures each boundary vector is
    cut into its first [nstates] entries and the [nquads] that follow.  The
    parameters are cut into the first [ndyn] and the [nnondyn] that follow.
    On vectors of the expected lengths the pieces put together again are the
    vectors. *)
Theorem boundary_closures_split nstates nquads ndyn nnondyn const (ya yb params : list F) :
  (∀ self, _bc self nstates nquads ndyn nnondyn const ya yb params
           = boundarycondition_function self
               (bc_arguments nstates nquads ndyn nnondyn ya yb params) const) ∧
  (∀ jac, _bc_jac jac nstates nquads ndyn nnondyn const ya yb params
          = jac (bc_arguments nstates nquads ndyn nnondyn ya yb params) const) ∧
  (nquads = 0 →
     ∃ pd pn, bc_arguments nstates nquads ndyn nnondyn ya yb params = [ya; yb; pd; pn] ∧
              (length params = ndyn + nnondyn →
                 pd ++ pn = params ∧ length pd = ndyn ∧ length pn = nnondyn)) ∧
  (0 < nquads →
     ∃ sa qa sb qb pd pn,
       bc_arguments nstates nquads ndyn nnondyn ya yb params = [sa; qa; sb; qb; pd; pn] ∧
       (length ya = nstates + nquads →
          sa ++ qa = ya ∧ length sa = nstates ∧ length qa = nquads) ∧
       (length yb = nstates + nquads →
          sb ++ qb = yb ∧ length sb = nstates ∧ length qb = nquads) ∧
       (length params = ndyn + nnondyn →
          pd ++ pn = params ∧ length pd = ndyn ∧ length pn = nnondyn)).
Proof.
  split_and!.
  - intros self. unfold _bc, bc_arguments. by destruct (nquads =? 0).
  - intros jac. unfold _bc_jac, bc_arguments.
    destruct nquads as [|n]; reflexivity.
  - intros ->. unfold bc_arguments. simpl. eexists _, _. split; [done|].
    apply take_slice_whole.
  - intros Hq. unfold bc_arguments. destruct (Nat.eqb_spec nquads 0); [lia|].
    eexists _, _, _, _, _, _. split; [done|].
    split_and!; apply take_slice_whole.
Qed.
Implicit Types (jac : jac_fun F) (y : matrix F).

Lemma node_map_ext {A} (f g : list F → A) (y y' : matrix F) :
  m_cols y = m_cols y' →
  (∀ j, j < m_cols y → f (column j y) = g (column j y')) →
  map f (m_data (transpose y)) = map g (m_data (transpose y')).
Proof.
  intros Hc Hfg. simpl. rewrite !map_map, <- Hc.
  apply map_ext_in. intros j Hj%in_seq. apply Hfg. lia.
Qed.

(** The dynamics closure reads of every node its first [nstates] entries and
    of the parameters the first [ndyn]: quadrature entries, non-dynamic
    parameters and the mesh have no part in what it returns. *)
Theorem fun_reads_states_and_dynamic_parameters self nstates nquads ndyn const
    t t' (y y' : matrix F) params params' :
  m_cols y = m_cols y' →
  (∀ j, j < m_cols y → take nstates (column j y) = take nstates (column j y')) →
  take ndyn params = take ndyn params' →
  _fun self nstates nquads ndyn const t y params
  = _fun self nstates nquads ndyn const t' y' params'.
Proof.
  intros Hc Hy Hp. unfold _fun.
  rewrite (node_map_ext
             (λ yi, derivative_function self (take nstates yi) (take ndyn params) const)
             (λ yi, derivative_function self (take nstates yi) (take ndyn params') const)
             y y' Hc); cycle 1.
  { intros j Hj. by rewrite (Hy j Hj), Hp. }
  rewrite (node_map_ext
             (λ yi, quadrature_function self (take nstates yi) (take ndyn params) const)
             (λ yi, quadrature_function self (take nstates yi) (take ndyn params') const)
             y y' Hc); cycle 1.
  { intros j Hj. by rewrite (Hy j Hj), Hp. }
  done.
Qed.

(** On a mesh without nodes the dynamics closure raises [ValueError]
    (nothing to stack) and the dynamics-Jacobian closure raises [IndexError]
    (no first node to take the size of). *)
Theorem closures_refuse_empty_mesh self jac nstates nquads ndyn nnondyn const t
    (y : matrix F) params :
  m_cols y = 0 →
  _fun self nstates nquads ndyn const t y params = Raise ValueError ∧
  _fun_jac jac nstates ndyn nnondyn const t y params = Raise IndexError.
Proof.
  intros Hc. unfold _fun, _fun_jac. simpl. rewrite Hc. simpl.
  by destruct (nquads =? 0).
Qed.
(** On inputs of the promised shapes the sensitivities the closure returns
    hold, at every node of [y], the state block the analytic function
    returned for that node and, in the first [ndyn] columns, its parameter
    block; the nodes that [t] has beyond those of [y] are zero. *)
Theorem fun_jac_places_blocks jac nstates ndyn nnondyn const t y params :
  jac_shaped jac nstates ndyn params const →
  (∀ yi p k, wf (jac yi p k).2) →
  length (m_data y) = nstates → 0 < m_cols y → m_cols y ≤ length t →
  0 < ndyn + nnondyn →
  ∃ dy dp,
    _fun_jac jac nstates ndyn nnondyn const t y params = Ok (JacBoth dy dp) ∧
    (∀ ii a b, ii < m_cols y →
       jac (column ii y) (take ndyn params) const = (Arr2 a, Arr2 b) →
       (∀ i j, get3 dy i j ii = nth j (nth i (m_data a) []) fzero) ∧
       (∀ i j, j < ndyn → get3 dp i j ii = nth j (nth i (m_data b) []) fzero)) ∧
    (∀ ii i j, m_cols y ≤ ii → get3 dy i j ii = fzero ∧ get3 dp i j ii = fzero).
Proof.
  intros Hjac Hwf Hy Hc Ht Hn.
  destruct (fun_jac_sensitivities jac nstates ndyn nnondyn const t y params)
    as (dy & dp & Hout & (_ & Hdy & Hdy0) & (_ & Hdp & _ & Hdp0)); try done.
  destruct (Nat.eqb_spec (ndyn + nnondyn) 0); [lia|].
  exists dy, dp. split_and!; [done| |by split; [apply Hdy0|apply Hdp0]].
  intros ii a b Hii Hab. split.
  - apply Hdy; [done|by rewrite Hab].
  - apply Hdp; [done|by rewrite Hab|].
    specialize (Hwf (column ii y) (take ndyn params) const). by rewrite Hab in Hwf.
Qed.
End MoreClosures.

Section Splitter.
Context {F : Type} `{Scalar F}.
Implicit Types (s : state F) (g : guess F).

(** The sizes read off a guess.  The only error is [IndexError], raised
    exactly when [y] has one axis or [q] has one axis and is not empty; a [q]
    without entries, of whatever shape, gives [nquads = 0], and [nquads] is
    positive when [q] has entries. *)
Theorem dimensions_sizes s obj g :
  read_guess s obj = Some g →
  ((dimensions obj s).2 = Raise IndexError ↔
     (∃ v, g_y g = Arr1 v) ∨ (∃ v, g_q g = Arr1 v ∧ v ≠ [])) ∧
  (∀ e, (dimensions obj s).2 = Raise e → e = IndexError) ∧
  (∀ nstates nquads ndyn nnondyn,
     (dimensions obj s).2 = Ok (nstates, nquads, ndyn, nnondyn) →
     shape1 (g_y g) = Ok nstates ∧ ndyn = size (g_p g) ∧ nnondyn = size (g_nu g) ∧
     (nquads = 0 ↔ size (g_q g) = 0) ∧
     (0 < nquads → shape1 (g_q g) = Ok nquads)).
Proof.
  intros [o Ho]%read_guess_holds. rewrite (dimensions_run s obj o g Ho). simpl.
  unfold sizes. destruct (g_y g) as [vy|my], (g_q g) as [vq|mq]; simpl.
  - split_and!; [split; [intros _; left; eauto|done]|by intros ? [= <-]|done].
  - split_and!; [split; [intros _; left; eauto|done]|by intros ? [= <-]|done].
  - destruct vq as [|x vq]; simpl.
    + split_and!; [split; [done|intros [[v [=]]|[v [[= <-] ?]]]; done]|done|].
      intros ? ? ? ? [= <- <- <- <-]. split_and!; try done. lia.
    + split_and!; [split; [intros _; right; eauto|done]|by intros ? [= <-]|done].
  - destruct (Nat.ltb_spec 0 (m_rows mq * m_cols mq)); simpl.
    + split_and!; [split; [done|intros [[v [=]]|[v [[=] ?]]]]|done|].
      intros ? ? ? ? [= <- <- <- <-]. split_and!; try done. split; intros; nia.
    + split_and!; [split; [done|intros [[v [=]]|[v [[=] ?]]]]|done|].
      intros ? ? ? ? [= <- <- <- <-]. split_and!; try done; [split; intros; lia|lia].
Qed.
End Splitter.

Section SolverFrame.
Context {F : Type} `{Scalar F}.
Variable solve_bvp :
  fun_t F → bc_t F → ndarray F → ndarray F → ndarray F → Z →
  option (fun_jac_t F) → option (bc_jac_t F) → res (bvp_out F).
Implicit Types (s : state F) (self : SPBVP F).

Lemma quadrature_only_refl self : quadrature_only self self.
Proof. unfold quadrature_only. naive_solver. Qed.

Lemma quadrature_only_trans self1 self2 self3 :
  quadrature_only self1 self2 → quadrature_only self2 self3 → quadrature_only self1 self3.
Proof.
  intros (? & ? & ? & ? & ? & Hq) (? & ? & ? & ? & ? & Hq').
  unfold quadrature_only. split_and!; try congruence.
  destruct Hq, Hq'; [left|right|right|right]; congruence.
Qed.

Lemma changes_bind {A B} (m : M F A) (k : A → M F B) :
  (∀ s, quadrature_only (st_self s) (st_self (m s).1)) →
  (∀ a s, quadrature_only (st_self s) (st_self (k a s).1)) →
  ∀ s, quadrature_only (st_self s) (st_self ((m ≫= k) s).1).
Proof.
  intros Hm Hk s. specialize (Hm s). unfold mbind, M_bind.
  destruct (m s) as [s' [a|e]]; simpl in *; [|done].
  eapply quadrature_only_trans; [exact Hm|apply Hk].
Qed.

Ltac changes_nothing := intros; apply quadrature_only_refl.
Ltac changes_step := apply changes_bind; [try changes_nothing|intros].

Lemma changes_deepcopy_array memo l s :
  quadrature_only (st_self s) (st_self (deepcopy_array memo l s).1).
Proof.
  revert s. unfold deepcopy_array. destruct (memo !! l); [changes_nothing|].
  changes_step. changes_step. changes_nothing.
Qed.

Lemma changes_deepcopy obj s : quadrature_only (st_self s) (st_self (deepcopy obj s).1).
Proof.
  revert s. unfold deepcopy. changes_step.
  do 7 (apply changes_bind; [apply changes_deepcopy_array|intros [? ?]]).
  changes_step. changes_step. changes_nothing.
Qed.

Lemma changes_dimensions obj s :
  quadrature_only (st_self s) (st_self (dimensions obj s).1).
Proof.
  revert s. unfold dimensions. do 4 changes_step.
  apply changes_bind; [|intros; do 2 changes_step; changes_nothing].
  destruct (0 <? size _); [changes_nothing|].
  intros s'. simpl. unfold quadrature_only. simpl. split_and!; try done. by right.
Qed.

Lemma changes_invoke obj nstates nquads ndyn nnondyn s :
  quadrature_only (st_self s)
    (st_self (invoke solve_bvp obj nstates nquads ndyn nnondyn s).1).
Proof.
  revert s. unfold invoke. do 5 changes_step.
  apply changes_bind.
  { destruct (0 <? nquads); [|changes_nothing]. do 2 changes_step. changes_nothing. }
  intros. do 3 changes_step. changes_nothing.
Qed.

Lemma changes_assign obj set a s :
  quadrature_only (st_self s) (st_self (assign (F:=F) obj set a s).1).
Proof. revert s. unfold assign. do 2 changes_step. changes_nothing. Qed.

Lemma changes_aux_setitem obj key v s :
  quadrature_only (st_self s) (st_self (aux_setitem (F:=F) obj key v s).1).
Proof. revert s. unfold aux_setitem. do 2 changes_step. changes_nothing. Qed.

Lemma changes_compose obj nstates nquads ndyn nnondyn opt comp_time s :
  quadrature_only (st_self s)
    (st_self (compose obj nstates nquads ndyn nnondyn opt comp_time s).1).
Proof.
  revert s. unfold compose.
  apply changes_bind; [unfold copy; changes_step; changes_nothing|intros].
  apply changes_bind; [apply changes_assign|intros].
  changes_step.
  apply changes_bind; [apply changes_assign|intros].
  changes_step.
  do 4 (apply changes_bind; [apply changes_assign|intros]).
  do 2 changes_step.
  do 2 (apply changes_bind; [apply changes_aux_setitem|intros]).
  changes_nothing.
Qed.

(** Whether it returns or raises, [solve] leaves the derivative function, the
    boundary function, the two Jacobians and [max_nodes] of the solver as
    they are; the quadrature function is as it was or is [return_nil]. *)
Theorem solve_changes_quadrature_only obj comp_time s :
  quadrature_only (st_self s) (st_self (solve solve_bvp obj comp_time s).1).
Proof.
  revert s. unfold solve.
  apply changes_bind; [apply changes_deepcopy|intros].
  apply changes_bind; [apply changes_dimensions|intros [[[? ?] ?] ?] ?].
  apply changes_bind; [apply changes_invoke|intros].
  apply changes_compose.
Qed.

(** A solver built by [__init__] has, after any call of [solve], the node
    budget of its [max_nodes] keyword, and 2000 when it was built without
    one. *)
Theorem constructed_budget_survives base (kwargs : gmap string Z) obj comp_time s :
  st_self s = __init__ base kwargs →
  max_nodes (st_self (solve solve_bvp obj comp_time s).1)
  = default 2000%Z (kwargs !! "max_nodes").
Proof.
  intros Hs. destruct (solve_changes_quadrature_only obj comp_time s) as (_ & _ & _ & _ & -> & _).
  by rewrite Hs.
Qed.
End SolverFrame.

Section RoundTrip.
Context {F : Type} `{Scalar F}.
Variable solve_bvp :
  fun_t F → bc_t F → ndarray F → ndarray F → ndarray F → Z →
  option (fun_jac_t F) → option (bc_jac_t F) → res (bvp_out F).
Implicit Types (s : state F) (g : guess F) (m : matrix F).

Lemma transpose_involutive m : wf_matrix m → transpose (transpose m) = m.
Proof.
  intros [Hr Hc]. destruct m as [r c rows]. simpl in *. unfold transpose at 1. simpl.
  f_equal. apply list_eq. intros i.
  rewrite list_lookup_fmap. destruct (rows !! i) as [row|] eqn:Hi.
  - rewrite lookup_seq_lt by (rewrite <- Hr; by eapply lookup_lt_Some). simpl. f_equal.
    apply (column_transpose i (Mat r c rows) row); [done|].
    rewrite Forall_forall in Hc. apply Hc. by eapply list_elem_of_lookup_2.
  - apply lookup_ge_None in Hi. rewrite lookup_seq_ge by lia. done.
Qed.

Lemma hstack_rows_split (ry rq : list (list F)) n k :
  length ry = length rq →
  Forall (λ row, length row = n) ry → Forall (λ row, length row = k) rq →
  map (slice 0 n) (zip_with app ry rq) = ry ∧
  map (slice n (n + k)) (zip_with app ry rq) = rq.
Proof.
  intros Hlen Hy. revert rq Hlen.
  induction Hy as [|a ry Ha Hy IH]; intros [|b rq] Hlen Hq; simpl in *; try done.
  inversion Hq as [|? ? Hb Hq']; subst.
  destruct (IH rq) as [-> ->]; [lia|done|].
  rewrite slice_from_0, take_app_length.
  rewrite slice_rest by (rewrite length_app; lia). by rewrite drop_app_length.
Qed.

(** Stacking and splitting are inverse: an engine output that is the stacked
    guess gives back [y] and [q] (a matrix without columns when there are no
    quadratures), and an output that is the stacked parameters gives back
    [p] and [nu]. *)
Theorem stack_split_round_trip (my mq : matrix F) (p nu : list F) (opt : bvp_out F) :
  wf_matrix my → wf_matrix mq → m_rows my = m_rows mq →
  opt_p opt = Some (Arr1 (p ++ nu)) →
  hstack (Arr1 p) (Arr1 nu) = Ok (Arr1 (p ++ nu)) ∧
  split_p (length p) opt = Arr1 p ∧
  split_nu (length p) (length nu) opt = Arr1 nu ∧
  (∀ yq, hstack (Arr2 my) (Arr2 mq) = Ok yq → opt_y opt = T yq →
     split_y (m_cols my) opt = Ok (Arr2 my) ∧
     split_q (m_cols my) (m_cols mq) opt = Ok (Arr2 mq)) ∧
  (opt_y opt = T (Arr2 my) →
     split_y (m_cols my) opt = Ok (Arr2 my) ∧
     split_q (m_cols my) 0 opt = Ok (Arr2 (Mat (m_rows my) 0 (replicate (m_rows my) [])))).
Proof.
  intros Hy Hq Hrows Hp. split_and!.
  - done.
  - unfold split_p. rewrite Hp. simpl. by rewrite slice_from_0, take_app_length.
  - unfold split_nu. rewrite Hp. simpl.
    rewrite slice_rest by (by rewrite length_app). by rewrite drop_app_length.
  - intros yq Hst Hopt. simpl in Hst. rewrite Hrows, Nat.eqb_refl in Hst. injection Hst as <-.
    assert (wf_matrix (Mat (m_rows mq) (m_cols my + m_cols mq)
                           (zip_with app (m_data my) (m_data mq)))) as Hwf.
    { destruct Hy as [Hy1 Hy2], Hq as [Hq1 Hq2]. split; simpl.
      - rewrite length_zip_with. lia.
      - apply (Forall_zip_with_app (λ a, length a = m_cols my) (λ b, length b = m_cols mq));
          [|done..]. intros a b Ha Hb. rewrite length_app. lia. }
    unfold split_y, split_q. rewrite Hopt. cbn [T]. rewrite (transpose_involutive _ Hwf). simpl.
    destruct Hy as [Hy1 Hy2], Hq as [Hq1 Hq2].
    destruct (hstack_rows_split (m_data my) (m_data mq) (m_cols my) (m_cols mq))
      as [-> ->]; [lia|done..|].
    destruct my as [r c rows], mq as [r' c' rows']. simpl in *. subst r'.
    split; do 3 f_equal; lia.
  - intros Hopt. unfold split_y, split_q. rewrite Hopt. cbn [T].
    rewrite (transpose_involutive _ Hy). destruct Hy as [Hy1 Hy2].
    destruct my as [r c rows]. simpl in *. split.
    + do 3 f_equal; [lia|]. rewrite <- (map_id rows) at 2. apply map_ext_Forall.
      eapply Forall_impl; [exact Hy2|]. intros row Hrow. simpl.
      rewrite slice_from_0. apply take_ge. simpl in Hrow. lia.
    + do 3 f_equal; [lia|]. subst r. clear. induction rows as [|row rows IH]; simpl; [done|].
      rewrite IH. f_equal. unfold slice. by replace (c + 0 - c) with 0 by lia.
Qed.
End RoundTrip.

Section Invocation.
Context {F : Type} `{Scalar F}.
Variable solve_bvp :
  fun_t F → bc_t F → ndarray F → ndarray F → ndarray F → Z →
  option (fun_jac_t F) → option (bc_jac_t F) → res (bvp_out F).
Implicit Types (s : state F) (g : guess F) (m : matrix F).

(** With quadratures, a guess whose [y] and [q] differ in their number of
    nodes makes the call raise [ValueError] before the engine is reached.
    Otherwise the engine is called on the mesh of the guess, on a matrix
    with one column per node that holds the states of the node above its
    quadratures, on the parameters [p] followed by [nu], and with
    [max_nodes] of the solver; the store is left as it is. *)
Theorem invoke_stacks_guess s obj g nstates nquads ndyn nnondyn (my mq : matrix F) :
  read_guess s obj = Some g →
  g_y g = Arr2 my → g_q g = Arr2 mq → 0 < nquads →
  (m_rows my ≠ m_rows mq →
     invoke solve_bvp obj nstates nquads ndyn nnondyn s = (s, Raise ValueError)) ∧
  (m_rows my = m_rows mq → ∀ pv nv, g_p g = Arr1 pv → g_nu g = Arr1 nv →
     ∃ y0,
       invoke solve_bvp obj nstates nquads ndyn nnondyn s
       = (s, solve_bvp (_fun (st_self s) nstates nquads ndyn (g_k g))
                       (_bc (st_self s) nstates nquads ndyn nnondyn (g_k g))
                       (g_t g) (Arr2 y0) (Arr1 (pv ++ nv)) (max_nodes (st_self s))
                       ((λ jac, _fun_jac jac nstates ndyn nnondyn (g_k g))
                          <$> derivative_function_jac (st_self s))
                       ((λ jac, _bc_jac jac nstates nquads ndyn nnondyn (g_k g))
                          <$> boundarycondition_function_jac (st_self s))) ∧
       m_rows y0 = m_cols my + m_cols mq ∧ m_cols y0 = m_rows my ∧
       (wf_matrix my → wf_matrix mq → ∀ j ry rq,
          m_data my !! j = Some ry → m_data mq !! j = Some rq →
          column j y0 = ry ++ rq)).
Proof.
  intros [o Ho]%read_guess_holds Hy Hq Hnq.
  rewrite (invoke_run solve_bvp s obj o g _ _ _ _ Ho). unfold engine_call.
  destruct (Nat.ltb_spec 0 nquads); [|lia]. rewrite Hy, Hq. simpl. split.
  - intros Hne. destruct (Nat.eqb_spec (m_rows my) (m_rows mq)); done.
  - intros Heq pv nv -> ->. rewrite Heq, Nat.eqb_refl. simpl.
    eexists. split; [reflexivity|]. split; [done|]. split; [done|].
    intros [_ Hyw] [_ Hqw] j ry rq Hry Hrq.
    apply column_transpose; simpl.
    + rewrite lookup_zip_with, Hry, Hrq. done.
    + rewrite Forall_forall in Hyw, Hqw. rewrite length_app.
      rewrite (Hyw ry), (Hqw rq); [done|by eapply list_elem_of_lookup_2..].
Qed.

(** The solution a call returns has the mesh of the engine and the constants
    of the guess; its convergence flag is the success flag of the result;
    its [aux] holds the elapsed time under [comp_time] and the number of
    iterations of the result under [niter], and is the [aux] of the guess at
    every other key. *)
Theorem solve_solution_fields s obj g nstates nquads ndyn nnondyn opt comp_time
    (m : matrix F) :
  read_guess s obj = Some g →
  sizes g = Ok (nstates, nquads, ndyn, nnondyn) →
  engine_call solve_bvp (solver_after (st_self s) g) g nstates nquads ndyn nnondyn = Ok opt →
  opt_y opt = Arr2 m →
  ∃ s' out g',
    solve solve_bvp obj comp_time s = (s', Ok out) ∧
    read_guess s' (sol out) = Some g' ∧
    g_t g' = opt_x opt ∧ g_k g' = g_k g ∧ g_converged g' = success out ∧
    g_aux g' !! "comp_time" = Some (AuxFloat comp_time) ∧
    g_aux g' !! "niter" = Some (AuxInt (niter out)) ∧
    (∀ key, key ≠ "comp_time" → key ≠ "niter" → g_aux g' !! key = g_aux g !! key).
Proof.
  intros [o Ho]%read_guess_holds Hsizes Hcall Hy.
  edestruct (solve_run solve_bvp s obj o g nstates nquads ndyn nnondyn opt comp_time)
    as (s' & out & o' & Hrun & Hg' & _ & Hs & _ & _ & Hn); [done..| | |].
  - unfold split_y. rewrite Hy. reflexivity.
  - unfold split_q. rewrite Hy. reflexivity.
  - eexists s', out, _. split; [exact Hrun|].
    split; [apply read_guess_holds; eauto|]. simpl. rewrite Hs, Hn.
    split_and!; try done.
    + by rewrite lookup_insert_ne, lookup_insert_eq.
    + by rewrite lookup_insert_eq.
    + intros key H1 H2. by rewrite !lookup_insert_ne.
Qed.
End Invocation.

(** ** These properties on the small problem *)

Section OnMoreExamples.
Import Examples MoreExamples.

Lemma fun_reads_states_witness :
  _fun solver0 2 1 1 (Arr1 []) [0; 1]%Z y_two_quad [5; 6]%Z
  = _fun solver0 2 1 1 (Arr1 []) [] y_two_other [5; 9]%Z.
Proof.
  refine (fun_reads_states_and_dynamic_parameters solver0 2 1 1 (Arr1 [])
            [0; 1]%Z [] y_two_quad y_two_other [5; 6]%Z [5; 9]%Z _ _ _);
    [reflexivity
    | intros [|[|j]] Hj; [reflexivity..|simpl in Hj; lia]
    | reflexivity].
Defined.

Lemma closures_refuse_empty_mesh_witness :
  _fun solver0 2 0 1 (Arr1 []) [] y_no_nodes [5; 6]%Z = Raise ValueError ∧
  _fun_jac jac_two 2 1 1 (Arr1 []) [] y_no_nodes [5; 6]%Z = Raise IndexError.
Proof.
  refine (closures_refuse_empty_mesh solver0 jac_two 2 0 1 1 (Arr1 []) [] y_no_nodes
            [5; 6]%Z _).
  reflexivity.
Defined.

Lemma fun_jac_places_blocks_witness :
  ∃ dy dp,
    _fun_jac jac_two 2 1 1 (Arr1 []) [0; 1; 2]%Z y_two [5; 6]%Z = Ok (JacBoth dy dp) ∧
    get3 dy 1 0 1 = 3%Z ∧ get3 dp 1 0 1 = 8%Z ∧ get3 dy 1 0 2 = 0%Z.
Proof.
  destruct (fun_jac_places_blocks jac_two 2 1 1 (Arr1 []) [0; 1; 2]%Z y_two [5; 6]%Z)
    as (dy & dp & Hout & Hnodes & Hrest);
    [intros yi; split; [reflexivity|left; reflexivity]
    | intros; split; [reflexivity|repeat constructor]
    | reflexivity | simpl; lia | simpl; lia | lia |].
  exists dy, dp. split; [exact Hout|].
  destruct (Hnodes 1 (Mat 2 2 [[1; 2]; [3; 4]]%Z) (Mat 2 1 [[7]; [8]]%Z))
    as [Hdy Hdp]; [simpl; lia|reflexivity|].
  split; [apply (Hdy 1 0)|]. split; [apply (Hdp 1 0); lia|].
  apply (Hrest 2 1 0). simpl. lia.
Defined.

Lemma dimensions_sizes_witness :
  shape1 (g_y guess1) = Ok 1 ∧ 0 = size (g_p guess1) ∧ 0 = size (g_nu guess1) ∧
  (1 = 0 ↔ size (g_q guess1) = 0) ∧ (0 < 1 → shape1 (g_q guess1) = Ok 1).
Proof.
  refine (proj2 (proj2 (dimensions_sizes store0 1 guess1 _)) 1 1 0 0 _); reflexivity.
Defined.

Lemma constructed_budget_survives_witness :
  max_nodes (st_self (solve engine_once 0 0%Z store_built).1) = 2000%Z.
Proof.
  refine (constructed_budget_survives engine_once solver0 ∅ 0 0%Z store_built _).
  reflexivity.
Defined.

Lemma stack_split_round_trip_witness :
  split_p 1 opt_echo = Arr1 [3]%Z ∧ split_nu 1 1 opt_echo = Arr1 [4]%Z ∧
  split_y 1 opt_echo = Ok (Arr2 (Mat 2 1 [[1]; [2]]%Z)) ∧
  split_q 1 1 opt_echo = Ok (Arr2 (Mat 2 1 [[5]; [6]]%Z)).
Proof.
  destruct (stack_split_round_trip (Mat 2 1 [[1]; [2]]%Z) (Mat 2 1 [[5]; [6]]%Z)
              [3]%Z [4]%Z opt_echo)
    as (_ & Hp & Hnu & Hyq & _);
    [split; [reflexivity|repeat constructor]
    | split; [reflexivity|repeat constructor]
    | reflexivity | reflexivity |].
  split; [exact Hp|]. split; [exact Hnu|].
  exact (Hyq (Arr2 (Mat 2 2 [[1; 5]; [2; 6]]%Z)) eq_refl eq_refl).
Defined.

Lemma invoke_stacks_guess_witness :
  ∃ y0, (invoke engine_once 1 1 1 0 0 store0).1 = store0 ∧
        m_rows y0 = 1 + 1 ∧ m_cols y0 = 2 ∧
        column 0 y0 = [1; 5]%Z ∧ column 1 y0 = [2; 6]%Z.
Proof.
  destruct (proj2 (invoke_stacks_guess engine_once store0 1 guess1 1 1 0 0
                     (Mat 2 1 [[1]; [2]]%Z) (Mat 2 1 [[5]; [6]]%Z)
                     eq_refl eq_refl eq_refl (le_n 1))
              eq_refl [] [] eq_refl eq_refl)
    as (y0 & Hrun & Hr & Hc & Hcol).
  exists y0. split; [by rewrite Hrun|]. split; [exact Hr|]. split; [exact Hc|].
  assert (wf_matrix (Mat 2 1 [[1]; [2]]%Z)) as Hy by (split; [reflexivity|repeat constructor]).
  assert (wf_matrix (Mat 2 1 [[5]; [6]]%Z)) as Hq by (split; [reflexivity|repeat constructor]).
  split; [exact (Hcol Hy Hq 0 [1]%Z [5]%Z eq_refl eq_refl)
         |exact (Hcol Hy Hq 1 [2]%Z [6]%Z eq_refl eq_refl)].
Defined.

Lemma solve_solution_fields_witness :
  ∃ s' out g',
    solve engine_once 1 0%Z store0 = (s', Ok out) ∧
    read_guess s' (sol out) = Some g' ∧
    g_k g' = g_k guess1 ∧ g_converged g' = success out ∧
    g_aux g' !! "comp_time" = Some (AuxFloat 0%Z) ∧
    g_aux g' !! "niter" = Some (AuxInt (niter out)).
Proof.
  destruct (solve_solution_fields engine_once store0 1 guess1 1 1 0 0 opt1 0%Z
              (Mat 2 2 [[1; 2]; [9; 9]]%Z) eq_refl eq_refl eq_refl eq_refl)
    as (s' & out & g' & Hrun & Hg & _ & Hk & Hc & Hct & Hn & _).
  exists s', out, g'. by split_and!.
Defined.

End OnMoreExamples.
